(** * Spyglass lenses: the lens registry and tail-line extraction

    A shallow embedding of [prow/spyglass/lenses/lenses.go]: the
    process-wide lens registry ([RegisterLens], [GetLens],
    [UnregisterLens]) and the chunked backward scan that recovers the last
    [n] lines of an artifact ([LastNLines], [LastNLinesChunked]).

    Go values are embedded as follows.
    - [int64] is [Z] with the wrap-around of every arithmetic operation
      written out ([Int64.add], [Int64.sub], [Int64.mul]).
    - [[]byte] is [list byte]; a Go [string] holding text of the program
      (error messages, names, titles, lines) is [string].
    - an [error] is a value of [error]: the sentinels of the package and of
      [io] are constructors, compared by identity as Go does.
    - an interface ([Artifact], [Lens]) is a record of its methods.  The
      methods of an artifact may perform I/O, so they thread a state
      [sigma] of the artifact's own; every call the extraction makes is
      recorded in a trace of [event]s.
    - the package variable [lensReg] and the log written through [logrus]
      form the [registry] state, passed explicitly. *)

From Stdlib Require Import ZArith List String Strings.Byte Lia.
From stdpp Require Import gmap strings list.

Local Open Scope Z_scope.

(** ** Machine integers *)

Module Int64.

Definition modulus : Z := 2 ^ 64.
Definition min_signed : Z := - 2 ^ 63.
Definition max_signed : Z := 2 ^ 63 - 1.

(** The value an [int64] holds after an operation whose mathematical
    result is [z]. *)
Definition wrap (z : Z) : Z := (z - min_signed) mod modulus + min_signed.

Definition add (x y : Z) : Z := wrap (x + y).
Definition sub (x y : Z) : Z := wrap (x - y).
Definition mul (x y : Z) : Z := wrap (x * y).

Definition in_range (z : Z) : Prop := min_signed <= z <= max_signed.

End Int64.

(** ** Errors *)

(** The error values the package declares or meets.  [ErrorString] stands
    for the values built by [errors.New] and [fmt.Errorf], and for any
    error of an artifact implementation that is none of the sentinels. *)
Inductive error : Type :=
| EOF                      (* io.EOF *)
| ErrGzipOffsetRead
| ErrInvalidLensName
| ErrFileTooLarge
| ErrContextUnsupported
| ErrorString (msg : string).

(** The [Error()] method, which the verb [%v] prints. *)
Definition error_msg (e : error) : string :=
  match e with
  | EOF => "EOF"
  | ErrGzipOffsetRead => "offset read on gzipped files unsupported"
  | ErrInvalidLensName => "invalid lens name"
  | ErrFileTooLarge => "file size over specified limit"
  | ErrContextUnsupported => "artifact does not support context operations"
  | ErrorString msg => msg
  end.

(** [err != io.EOF] on a non-nil [err]. *)
Definition is_EOF (e : error) : bool :=
  match e with EOF => true | _ => false end.

(** ** Byte slices: the functions of [bytes] and [bufio] the code calls *)

Definition NUL : byte := x00.
Definition LF : byte := x0a.
Definition CR : byte := x0d.

Fixpoint trimLeftNUL (s : list byte) : list byte :=
  match s with
  | b :: s' => if Byte.eqb b NUL then trimLeftNUL s' else s
  | [] => []
  end.

(** [bytes.Trim(s, "\x00")]: all leading and all trailing NUL bytes go. *)
Definition Trim (s : list byte) : list byte :=
  rev (trimLeftNUL (rev (trimLeftNUL s))).

(** [bytes.Count(s, []byte("\n"))]. *)
Fixpoint Count (s : list byte) : Z :=
  match s with
  | b :: s' => (if Byte.eqb b LF then 1 else 0) + Count s'
  | [] => 0
  end.

(** [dropCR] of [bufio]: one trailing carriage return is dropped. *)
Definition dropCR (tok : list byte) : list byte :=
  match rev tok with
  | b :: t => if Byte.eqb b CR then rev t else tok
  | [] => tok
  end.

(** [bufio.MaxScanTokenSize]: the largest buffer a [Scanner] allocates. *)
Definition MaxScanTokenSize : N := 65536.

(** The tokens a [bufio.Scanner] with the split function [bufio.ScanLines]
    yields over [data] until [Scan] returns false.  [cur] is the current
    line so far, in reverse, and [k] its length.  A line ends at a newline,
    or at the end of the data when it is not empty.  When the buffer holds
    [MaxScanTokenSize] bytes and no newline, [Scan] fails (with
    [ErrTooLong]) and returns false; the caller below never looks at
    [scanner.Err()], so the scan just ends there. *)
Fixpoint scanTokens (data : list byte) (cur : list byte) (k : N) : list (list byte) :=
  match data with
  | [] =>
      if (k =? 0)%N then []
      else if (MaxScanTokenSize <=? k)%N then []
      else [dropCR (rev cur)]
  | b :: rest =>
      if (MaxScanTokenSize <=? k)%N then []
      else if Byte.eqb b LF then dropCR (rev cur) :: scanTokens rest [] 0%N
      else scanTokens rest (b :: cur) (k + 1)%N
  end.

(** The loop [for scanner.Scan() { lines = append(lines, scanner.Text()) }]. *)
Definition scanLines (contents : list byte) : list string :=
  map string_of_list_byte (scanTokens contents [] 0%N).

(** ** The Artifact interface *)

(** What a call of the extraction on its artifact did, with what the
    artifact answered. *)
Inductive event : Type :=
| CallSize (size : Z) (err : option error)
| CallReadAt (len : Z) (off : Z) (n : Z) (err : option error).

Definition is_CallSize (ev : event) : bool :=
  match ev with CallSize _ _ => true | _ => false end.

Definition is_CallReadAt (ev : event) : bool :=
  match ev with CallReadAt _ _ _ _ => true | _ => false end.

(** [type Artifact interface].  [sigma] is whatever the implementation
    holds or reaches (an open file, a remote store).  [ReadAt p off] gets
    the buffer [p] and answers with the buffer as the call leaves it. *)
Record Artifact (sigma : Type) : Type := {
  ReadAt : list byte -> Z -> sigma -> (list byte * Z * option error) * sigma;
  ReadAtMost : Z -> sigma -> (list byte * option error) * sigma;
  CanonicalLink : string;
  JobPath : string;
  ReadAll : sigma -> (list byte * option error) * sigma;
  ReadTail : Z -> sigma -> (list byte * option error) * sigma;
  Size : sigma -> (Z * option error) * sigma
}.

Arguments ReadAt {sigma} _ _ _ _.
Arguments ReadAtMost {sigma} _ _ _.
Arguments CanonicalLink {sigma} _.
Arguments JobPath {sigma} _.
Arguments ReadAll {sigma} _ _.
Arguments ReadTail {sigma} _ _ _.
Arguments Size {sigma} _ _.

(** ** Tail-line extraction *)

(** How a call ends: it returns its pair of results, or the Go runtime
    panics, or the model's fuel runs out while the loop is still going. *)
Inductive outcome : Type :=
| Returned (lines : list string) (err : option error)
| Panicked (msg : string)
| OutOfFuel.

(** The local variables of [LastNLinesChunked] that live across the
    iterations of its loop. *)
Record locals : Type := {
  toRead : Z;
  chunks : Z;
  contents : list byte;
  linesInContents : Z;
  offset : Z;
  lastOffset : Z;
  lastRead : Z
}.

(** One pass through the loop body either goes on with new locals or ends
    the call. *)
Inductive step : Type :=
| Continue (v : locals)
| Abort (o : outcome).

(** [err != nil && err != io.EOF] *)
Definition read_failed (err : option error) : bool :=
  match err with
  | Some e => negb (is_EOF e)
  | None => false
  end.

Definition size_error (e : error) : error :=
  ErrorString ("error getting artifact size: " +:+ error_msg e).

Definition read_error (e : error) : error :=
  ErrorString ("error reading artifact: " +:+ error_msg e).

(** The tail of [LastNLinesChunked], after its loop: scan [contents] into
    lines and keep the last [n].  [lines[l-n:]] panics when its bound is
    not within [0..len(lines)]. *)
Definition lastLines (contents : list byte) (n : Z) : outcome :=
  let lines := scanLines contents in
  let l := Z.of_nat (length lines) in
  if l <? n then Returned lines None
  else
    let from := Int64.sub l n in
    if (from <? 0) || (l <? from)
    then Panicked "slice bounds out of range"
    else Returned (drop (Z.to_nat from) lines) None.

(** The locals of [LastNLinesChunked] when its loop is entered: [toRead]
    has one byte more than a chunk, [chunks] is 1, and the first offset
    lies one chunk before the end of the artifact. *)
Definition initLocals (artifactSize chunkSize : Z) : locals :=
  let chunks0 := 1 in
  let offset0 := Int64.sub artifactSize (Int64.mul chunks0 chunkSize) in
  {| toRead := Int64.add chunkSize 1;
     chunks := chunks0;
     contents := [];
     linesInContents := 0;
     offset := offset0;
     lastOffset := offset0;
     lastRead := 0 |}.

Section Extraction.

Context {sigma : Type}.
Variable a : Artifact sigma.

(** The window the next read covers, as the first statements of the loop
    body set it: the length [toRead] and the [offset].  A window that
    would start before the artifact is clamped to start at 0. *)
Definition window (chunkSize : Z) (v : locals) : Z * Z :=
  let offset0 := Int64.sub (lastOffset v) (lastRead v) in
  if offset0 <? 0
  then (Int64.add (Int64.add offset0 chunkSize) 1, 0)
  else (toRead v, offset0).

(** The body of the loop.  [make([]byte, toRead)] panics on a negative
    length (the limit of what the runtime can allocate is left out); the
    fresh buffer holds zero bytes.  [int64(numBytesRead)] is the value
    itself, [int] having 64 bits. *)
Definition loopBody (chunkSize : Z) (v : locals) (s : sigma)
  : step * list event * sigma :=
  let '(toRead', offset') := window chunkSize v in
  if toRead' <? 0 then (Abort (Panicked "makeslice: len out of range"), [], s)
  else
    let '((bytesRead, numBytesRead, err), s') :=
      ReadAt a (replicate (Z.to_nat toRead') NUL) offset' s in
    let ev := CallReadAt toRead' offset' numBytesRead err in
    if read_failed err
    then (Abort (Returned [] (option_map read_error err)), [ev], s')
    else
      let bytesRead' := Trim bytesRead in
      (Continue {| toRead := toRead';
                   chunks := Int64.add (chunks v) 1;
                   contents := bytesRead' ++ contents v;
                   linesInContents := Int64.add (linesInContents v) (Count bytesRead');
                   offset := offset';
                   lastOffset := offset';
                   lastRead := numBytesRead |},
       [ev], s').

(** [for linesInContents < n && offset != 0 { ... }]: the locals when the
    loop is left, or how the call ended inside it. *)
Fixpoint scanBack (fuel : nat) (n chunkSize : Z) (v : locals) (s : sigma)
  : (locals + outcome) * list event * sigma :=
  if (linesInContents v <? n) && negb (offset v =? 0) then
    match fuel with
    | O => (inr OutOfFuel, [], s)
    | S fuel' =>
        match loopBody chunkSize v s with
        | (Continue v', evs, s') =>
            let '(r, evs', s'') := scanBack fuel' n chunkSize v' s' in
            (r, evs ++ evs', s'')
        | (Abort o, evs, s') => (inr o, evs, s')
        end
    end
  else (inl v, [], s).

Definition LastNLinesChunked (fuel : nat) (n chunkSize : Z) (s : sigma)
  : outcome * list event * sigma :=
  let '((artifactSize, err), s1) := Size a s in
  let ev := CallSize artifactSize err in
  match err with
  | Some e => (Returned [] (Some (size_error e)), [ev], s1)
  | None =>
      match scanBack fuel n chunkSize (initLocals artifactSize chunkSize) s1 with
      | (inl v, evs, s2) => (lastLines (contents v) n, ev :: evs, s2)
      | (inr o, evs, s2) => (o, ev :: evs, s2)
      end
  end.

(** 300B, a reasonable log line length. *)
Definition LastNLines (fuel : nat) (n : Z) (s : sigma)
  : outcome * list event * sigma :=
  LastNLinesChunked fuel n (Int64.add (Int64.mul 300 n) 1) s.

End Extraction.

(** What the caller sees of a call. *)
Definition result {sigma : Type} (r : outcome * list event * sigma)
  : outcome := r.1.1.

Definition trace {sigma : Type} (r : outcome * list event * sigma)
  : list event := r.1.2.

(** How many times a trace asks for the size, and how many times it reads. *)
Definition count_Size (tr : list event) : nat :=
  length (filter (fun ev => is_CallSize ev = true) tr).

Definition count_ReadAt (tr : list event) : nat :=
  length (filter (fun ev => is_CallReadAt ev = true) tr).

(** ** Artifacts held in memory *)

(** Modelled from the spec: the [ReadAt] of a storage backend, which is
    not part of this file.  On an artifact whose bytes are [content] and
    the buffer [p], the bytes from the absolute offset [off] on are copied
    over the front of [p], and a read that fills less than [p] is a
    partial read, signalled by the end-of-data condition. *)
Definition contentReadAt (content p : list byte) (off : Z)
  : list byte * Z * option error :=
  if off <? 0 then (p, 0, Some (ErrorString "negative offset"))
  else if Z.of_nat (length content) <=? off then (p, 0, Some EOF)
  else
    let src := drop (Z.to_nat off) content in
    let k := Nat.min (length p) (length src) in
    (take k src ++ drop k p, Z.of_nat k,
     if (k <? length p)%nat then Some EOF else None).

(** Modelled from the spec: the storage backends that implement [Artifact]
    are not part of this file, so an artifact is given by the capability
    contract of the spec: [content] is its byte sequence; [ReadAt] fills the
    buffer from an absolute offset and signals a partial read by the
    end-of-data condition; [ReadAtMost] reads from the start; [ReadTail]
    reads the last bytes; [ReadAll] fails with the too-large condition over
    the ceiling [limit]; [Size] is the byte length.  [sizeErr] makes the
    size query fail, and [readErr] makes every offset-based or tail read
    fail (a compressed artifact fails them with [ErrGzipOffsetRead]). *)
Definition memArtifact (content : list byte) (limit : Z)
    (sizeErr readErr : option error) : Artifact unit :=
  {| ReadAt p off s :=
       match readErr with
       | Some e => ((p, 0, Some e), s)
       | None => (contentReadAt content p off, s)
       end;
     ReadAtMost n s := ((take (Z.to_nat n) content, None), s);
     CanonicalLink := EmptyString;
     JobPath := EmptyString;
     ReadAll s :=
       if limit <? Z.of_nat (length content)
       then (([], Some ErrFileTooLarge), s)
       else ((content, None), s);
     ReadTail n s :=
       match readErr with
       | Some e => (([], Some e), s)
       | None => ((drop (length content - Z.to_nat n) content, None), s)
       end;
     Size s :=
       match sizeErr with
       | Some e => ((0, Some e), s)
       | None => ((Z.of_nat (length content), None), s)
       end |}.

(** An artifact with the bytes [content] and no failure. *)
Definition plainArtifact (content : list byte) : Artifact unit :=
  memArtifact content (Z.of_nat (length content)) None None.

(** A compressed artifact: offset reads are unsupported. *)
Definition gzipArtifact (content : list byte) : Artifact unit :=
  memArtifact content (Z.of_nat (length content)) None (Some ErrGzipOffsetRead).

(** The reference: a full linear scan of the content, cut to its last [n]
    lines. *)
Definition fullScanLastN (content : list byte) (n : Z) : list string :=
  let lines := scanLines content in
  drop (length lines - Z.to_nat n) lines.

(** The four lines "a", "b", "c", "d", each ended by a newline. *)
Definition abcd : list byte := ["a"; LF; "b"; LF; "c"; LF; "d"; LF]%byte.

(** ** The lens registry *)

(** [type LensConfig struct].  [Priority] is a [uint]: it holds no negative
    value, and the code only compares it. *)
Record LensConfig : Type := {
  Name : string;
  Title : string;
  Priority : N;
  HideTitle : bool
}.

(** [type Lens interface], over the type [art] of the artifacts handed to
    a lens. *)
Record Lens (art : Type) : Type := {
  Config : LensConfig;
  Header : list art -> string -> string;
  Body : list art -> string -> string -> string;
  Callback : list art -> string -> string -> string
}.

Arguments Config {art} _.
Arguments Header {art} _ _ _.
Arguments Body {art} _ _ _ _.
Arguments Callback {art} _ _ _ _.

(** The state the registry functions work on: the package variable
    [lensReg] and the lines logged at level Info. *)
Record registry (art : Type) : Type := {
  lensReg : gmap string (Lens art);
  logged : list string
}.

Arguments lensReg {art} _.
Arguments logged {art} _.

Section Registry.

Context {art : Type}.

(** [var lensReg = map[string]Lens{}] *)
Definition emptyRegistry : registry art :=
  {| lensReg := ∅; logged := [] |}.

Definition RegisterLens (lens : Lens art) (r : registry art)
  : option error * registry art :=
  let config := Config lens in
  match lensReg r !! Name config with
  | Some _ =>
      (Some (ErrorString ("viewer already registered with name " +:+ Name config)), r)
  | None =>
      if String.eqb (Title config) EmptyString then
        (Some (ErrorString "empty title field in view metadata"), r)
      else if (Priority config <? 0)%N then
        (Some (ErrorString "priority must be >=0"), r)
      else
        (None,
         {| lensReg := <[Name config := lens]> (lensReg r);
            logged := logged r ++
              ["Spyglass registered viewer " +:+ Name config +:+
               " with title " +:+ Title config +:+ "."] |})
  end.

Definition GetLens (name : string) (r : registry art)
  : option (Lens art) * option error :=
  match lensReg r !! name with
  | Some lens => (Some lens, None)
  | None => (None, Some ErrInvalidLensName)
  end.

Definition UnregisterLens (viewerName : string) (r : registry art)
  : registry art :=
  {| lensReg := delete viewerName (lensReg r);
     logged := logged r ++
       ["Spyglass unregistered viewer " +:+ viewerName +:+ "."] |}.

End Registry.

(** Two lenses to run the registry on. *)
Definition buildLog : Lens unit :=
  {| Config := {| Name := "buildlog"; Title := "Build Log";
                  Priority := 10; HideTitle := false |};
     Header _ _ := "<style></style>";
     Body _ _ data := data;
     Callback _ _ _ := EmptyString |}.

Definition untitled (name : string) : Lens unit :=
  {| Config := {| Name := name; Title := EmptyString;
                  Priority := 0; HideTitle := true |};
     Header _ _ := EmptyString;
     Body _ _ _ := EmptyString;
     Callback _ _ _ := EmptyString |}.

(** ** Artifacts and masks used to state the error handling *)

(** The artifact [a] with the end-of-data signal of its [ReadAt] hidden:
    a read that ended the data answers [nil] for its error. *)
Definition ignoreEOF {sigma : Type} (a : Artifact sigma) : Artifact sigma :=
  {| ReadAt p off s :=
       let '((buf, k, err), s') := ReadAt a p off s in
       ((buf, k, if read_failed err then err else None), s');
     ReadAtMost := ReadAtMost a;
     CanonicalLink := CanonicalLink a;
     JobPath := JobPath a;
     ReadAll := ReadAll a;
     ReadTail := ReadTail a;
     Size := Size a |}.

(** The same on a recorded call. *)
Definition maskEOF (ev : event) : event :=
  match ev with
  | CallReadAt len off k err =>
      CallReadAt len off k (if read_failed err then err else None)
  | CallSize _ _ => ev
  end.

(** A store that cannot be reached for the size, and one whose reads
    break. *)
Definition connReset : error := ErrorString "connection reset by peer".

Definition unreachableArtifact : Artifact unit :=
  memArtifact abcd 8 (Some connReset) None.

Definition brokenReadArtifact : Artifact unit :=
  memArtifact abcd 8 None (Some connReset).

(** The three ways a pass through the loop body can go: the buffer cannot
    be made; the read fails for good; the read succeeds or ends the data. *)
Inductive body_spec {sigma : Type} (a : Artifact sigma)
    (chunkSize : Z) (v : locals) (s : sigma)
  : step * list event * sigma -> Prop :=
| body_panic :
    (window chunkSize v).1 < 0 ->
    body_spec a chunkSize v s
      (Abort (Panicked "makeslice: len out of range"), [], s)
| body_abort buf k e s' :
    0 <= (window chunkSize v).1 ->
    ReadAt a (replicate (Z.to_nat (window chunkSize v).1) NUL)
      (window chunkSize v).2 s = ((buf, k, Some e), s') ->
    is_EOF e = false ->
    body_spec a chunkSize v s
      (Abort (Returned [] (Some (read_error e))),
       [CallReadAt (window chunkSize v).1 (window chunkSize v).2 k (Some e)], s')
| body_continue buf k err s' :
    0 <= (window chunkSize v).1 ->
    ReadAt a (replicate (Z.to_nat (window chunkSize v).1) NUL)
      (window chunkSize v).2 s = ((buf, k, err), s') ->
    read_failed err = false ->
    body_spec a chunkSize v s
      (Continue {| toRead := (window chunkSize v).1;
                   chunks := Int64.add (chunks v) 1;
                   contents := Trim buf ++ contents v;
                   linesInContents :=
                     Int64.add (linesInContents v) (Count (Trim buf));
                   offset := (window chunkSize v).2;
                   lastOffset := (window chunkSize v).2;
                   lastRead := k |},
       [CallReadAt (window chunkSize v).1 (window chunkSize v).2 k err], s').

(** What holds of the locals at the head of the loop on an artifact of
    [size] bytes: the raw offset of the next window lies less than a chunk
    before the start and before the end of the artifact. *)
Definition scan_inv (size chunkSize : Z) (v : locals) : Prop :=
  lastOffset v = offset v
  /\ toRead v = chunkSize + 1
  /\ - chunkSize <= lastOffset v - lastRead v < size.

(** ** Sequences of registry calls *)

(** A call that changes the registry. *)
Inductive regOp (art : Type) : Type :=
| OpRegister (lens : Lens art)
| OpUnregister (viewerName : string).

Arguments OpRegister {art} _.
Arguments OpUnregister {art} _.

(** The registry after one call; the error of a registration is dropped,
    as a caller that only logs it would. *)
Definition applyOp {art : Type} (r : registry art) (op : regOp art)
  : registry art :=
  match op with
  | OpRegister lens => (RegisterLens lens r).2
  | OpUnregister viewerName => UnregisterLens viewerName r
  end.

Definition runOps {art : Type} (ops : list (regOp art)) (r : registry art)
  : registry art :=
  fold_left applyOp ops r.

(** Every lens of the registry sits under the name of its own config, and
    has a title. *)
Definition keyed_by_name {art : Type} (r : registry art) : Prop :=
  forall k lens,
    lensReg r !! k = Some lens ->
    Name (Config lens) = k /\ Title (Config lens) <> EmptyString.

Definition metadataLens : Lens unit :=
  {| Config := {| Name := "metadata"; Title := "Metadata";
                  Priority := 0; HideTitle := false |};
     Header _ _ := EmptyString;
     Body _ _ data := data;
     Callback _ _ _ := EmptyString |}.

(** ** Predicates on calls and contents *)

(** A read asks for a buffer and an offset that are not negative. *)
Definition read_in_bounds (ev : event) : Prop :=
  match ev with
  | CallReadAt len off _ _ => 0 <= len /\ 0 <= off
  | CallSize _ _ => True
  end.


(** The locals the loop comes back to, pass after pass, when the chunk
    size is 0: only [chunks] moves. *)
Definition stuckLocals (size chunks0 : Z) : locals :=
  {| toRead := 1;
     chunks := chunks0;
     contents := [];
     linesInContents := 0;
     offset := size;
     lastOffset := size;
     lastRead := 0 |}.

(** The last [chunkSize] bytes of the content. *)
Definition lastBytes (content : list byte) (chunkSize : Z) : list byte :=
  drop (Z.to_nat (Z.of_nat (length content) - chunkSize)) content.

(** * Properties of the machine integers *)

Lemma Int64_wrap_in_range z : Int64.in_range z -> Int64.wrap z = z.
Proof.
  unfold Int64.in_range, Int64.wrap, Int64.min_signed, Int64.max_signed,
    Int64.modulus.
  intros Hz. rewrite Z.mod_small; lia.
Qed.

Lemma Int64_wrap_range z : Int64.in_range (Int64.wrap z).
Proof.
  unfold Int64.in_range, Int64.wrap, Int64.min_signed, Int64.max_signed,
    Int64.modulus.
  pose proof (Z.mod_pos_bound (z - - 2 ^ 63) (2 ^ 64)). lia.
Qed.

Ltac int64_small :=
  unfold Int64.add, Int64.sub, Int64.mul;
  repeat match goal with
    | |- context [Int64.wrap ?z] =>
        rewrite (Int64_wrap_in_range z)
          by (unfold Int64.in_range, Int64.min_signed, Int64.max_signed in *; lia)
    end.

(** The first offset is 0 when the chunk is the whole artifact. *)
Lemma Int64_sub_mul_one_self x : Int64.sub x (Int64.mul 1 x) = 0.
Proof.
  unfold Int64.sub, Int64.mul, Int64.wrap, Int64.min_signed, Int64.modulus.
  rewrite Z.mul_1_l.
  pose proof (Z.div_mod (x - - 2 ^ 63) (2 ^ 64) ltac:(lia)) as Hdm.
  replace (x - ((x - - 2 ^ 63) mod 2 ^ 64 + - 2 ^ 63) - - 2 ^ 63)
    with (2 ^ 63 + ((x - - 2 ^ 63) / 2 ^ 64) * 2 ^ 64) by lia.
  rewrite Z_mod_plus_full. reflexivity.
Qed.

(** * Properties of tail-line extraction *)

Section ExtractionFacts.

Context {sigma : Type}.
Variable a : Artifact sigma.

(** The loop does nothing when its condition is false on entry. *)
Lemma scanBack_done fuel n chunkSize v s :
  (linesInContents v <? n) && negb (offset v =? 0) = false ->
  scanBack a fuel n chunkSize v s = (inl v, [], s).
Proof. intros Hc. destruct fuel; simpl; rewrite Hc; reflexivity. Qed.

Lemma scanBack_step fuel n chunkSize v s :
  (linesInContents v <? n) && negb (offset v =? 0) = true ->
  scanBack a (S fuel) n chunkSize v s =
    match loopBody a chunkSize v s with
    | (Continue v', evs, s') =>
        let '(r, evs', s'') := scanBack a fuel n chunkSize v' s' in
        (r, evs ++ evs', s'')
    | (Abort o, evs, s') => (inr o, evs, s')
    end.
Proof. intros Hc. simpl. rewrite Hc. reflexivity. Qed.

Lemma loopBody_spec chunkSize v s :
  body_spec a chunkSize v s (loopBody a chunkSize v s).
Proof.
  unfold loopBody.
  destruct (window chunkSize v) as [tr off] eqn:Hw.
  destruct (tr <? 0) eqn:Htr.
  - replace tr with (window chunkSize v).1 in Htr by (rewrite Hw; done).
    apply body_panic. lia.
  - destruct (ReadAt a (replicate (Z.to_nat tr) NUL) off s)
      as [[[buf k] err] s'] eqn:Hr.
    replace tr with (window chunkSize v).1 in * by (rewrite Hw; done).
    replace off with (window chunkSize v).2 in * by (rewrite Hw; done).
    destruct (read_failed err) eqn:Hf.
    + destruct err as [e|]; [|discriminate]. simpl.
      apply (body_abort _ _ _ _ buf); [lia|exact Hr|].
      simpl in Hf. by destruct (is_EOF e).
    + apply (body_continue _ _ _ _ buf); [lia|exact Hr|exact Hf].
Qed.

End ExtractionFacts.

Section ErrorHandling.

Context {sigma : Type}.
Variable a : Artifact sigma.

(** A read that fails for good is the last thing the loop does, and its
    error, wrapped, is what the loop ends with. *)
Lemma scanBack_read_failure fuel n chunkSize :
  forall v s r evs s' len off k e,
    scanBack a fuel n chunkSize v s = (r, evs, s') ->
    In (CallReadAt len off k (Some e)) evs ->
    is_EOF e = false ->
    r = inr (Returned [] (Some (read_error e)))
    /\ last evs = Some (CallReadAt len off k (Some e)).
Proof.
  induction fuel as [|fuel IH]; intros v s r evs s' len off k e Hrun Hin HnE.
  - simpl in Hrun.
    destruct ((linesInContents v <? n) && negb (offset v =? 0));
      inversion Hrun; subst; contradiction.
  - destruct ((linesInContents v <? n) && negb (offset v =? 0)) eqn:Hc.
    2:{ rewrite scanBack_done in Hrun by exact Hc.
        inversion Hrun; subst; contradiction. }
    rewrite scanBack_step in Hrun by exact Hc.
    destruct (loopBody_spec a chunkSize v s)
      as [Hneg|buf k' e' s1 Hpos Hr He|buf k' err s1 Hpos Hr Hf].
    + inversion Hrun; subst; contradiction.
    + inversion Hrun; subst.
      destruct Hin as [Heq|[]]. inversion Heq; subst. done.
    + destruct (scanBack a fuel n chunkSize _ s1) as [[r1 evs1] s2] eqn:Hrest.
      inversion Hrun; subst.
      destruct Hin as [Heq|Hin].
      * inversion Heq; subst. simpl in Hf. rewrite HnE in Hf. discriminate.
      * destruct (IH _ _ _ _ _ _ _ _ _ Hrest Hin HnE) as [-> Hlast].
        split; [done|].
        change (last ([CallReadAt (window chunkSize v).1
                         (window chunkSize v).2 k' err] ++ evs1)
                = Some (CallReadAt len off k (Some e))).
        rewrite last_app, Hlast. done.
Qed.

(** Hiding the end-of-data signal changes nothing but the record of it:
    the loop takes the same steps. *)
Lemma loopBody_ignoreEOF chunkSize v s :
  loopBody (ignoreEOF a) chunkSize v s =
    (let '(st, evs, s') := loopBody a chunkSize v s in (st, map maskEOF evs, s')).
Proof.
  unfold loopBody. destruct (window chunkSize v) as [tr off].
  destruct (tr <? 0); [reflexivity|].
  simpl. destruct (ReadAt a (replicate (Z.to_nat tr) NUL) off s)
    as [[[buf k] err] s'].
  destruct err as [[]|]; reflexivity.
Qed.

Lemma scanBack_ignoreEOF fuel n chunkSize :
  forall v s,
    scanBack (ignoreEOF a) fuel n chunkSize v s =
      (let '(r, evs, s') := scanBack a fuel n chunkSize v s in
       (r, map maskEOF evs, s')).
Proof.
  induction fuel as [|fuel IH]; intros v s.
  - simpl. destruct ((linesInContents v <? n) && negb (offset v =? 0));
      reflexivity.
  - destruct ((linesInContents v <? n) && negb (offset v =? 0)) eqn:Hc.
    2:{ rewrite !scanBack_done by exact Hc. reflexivity. }
    rewrite !scanBack_step by exact Hc.
    rewrite loopBody_ignoreEOF.
    destruct (loopBody a chunkSize v s) as [[[v'|o] evs] s1]; [|reflexivity].
    rewrite IH.
    destruct (scanBack a fuel n chunkSize v' s1) as [[r evs1] s2].
    rewrite map_app. reflexivity.
Qed.

Lemma LastNLinesChunked_ignoreEOF fuel n chunkSize s :
  LastNLinesChunked (ignoreEOF a) fuel n chunkSize s =
    (let '(o, tr, s') := LastNLinesChunked a fuel n chunkSize s in
     (o, map maskEOF tr, s')).
Proof.
  unfold LastNLinesChunked. simpl.
  destruct (Size a s) as [[sz err] s1].
  destruct err as [e|]; [reflexivity|].
  rewrite scanBack_ignoreEOF.
  destruct (scanBack a fuel n chunkSize (initLocals sz chunkSize) s1)
    as [[[v|o] evs] s2]; reflexivity.
Qed.

Lemma LastNLinesChunked_size_failure fuel n chunkSize s sz e s' :
  Size a s = ((sz, Some e), s') ->
  LastNLinesChunked a fuel n chunkSize s =
    (Returned [] (Some (size_error e)), [CallSize sz (Some e)], s').
Proof. intros Hs. unfold LastNLinesChunked. rewrite Hs. reflexivity. Qed.

Lemma LastNLinesChunked_read_failure fuel n chunkSize s len off k e :
  In (CallReadAt len off k (Some e)) (trace (LastNLinesChunked a fuel n chunkSize s)) ->
  is_EOF e = false ->
  result (LastNLinesChunked a fuel n chunkSize s) = Returned [] (Some (read_error e))
  /\ last (trace (LastNLinesChunked a fuel n chunkSize s))
     = Some (CallReadAt len off k (Some e)).
Proof.
  unfold LastNLinesChunked, result, trace.
  destruct (Size a s) as [[sz err] s1].
  destruct err as [e'|]; simpl.
  { intros [Heq|[]]. discriminate. }
  destruct (scanBack a fuel n chunkSize (initLocals sz chunkSize) s1)
    as [[r evs] s2] eqn:Hrun.
  intros Hin HnE.
  assert (Hin' : In (CallReadAt len off k (Some e)) evs).
  { destruct r; simpl in Hin; destruct Hin as [Heq|Hin]; done. }
  destruct (scanBack_read_failure _ _ _ _ _ _ _ _ _ _ _ _ Hrun Hin' HnE)
    as [-> Hlast].
  simpl. split; [done|].
  destruct evs as [|ev evs]; [contradiction|]. exact Hlast.
Qed.

End ErrorHandling.

(** Nothing read, nothing returned. *)
Lemma lastLines_nil n : 1 <= n -> lastLines [] n = Returned [] None.
Proof.
  intros Hn. unfold lastLines. change (scanLines []) with (@nil string).
  change (Z.of_nat (length (@nil string))) with 0.
  destruct (0 <? n) eqn:Hlt; [reflexivity|lia].
Qed.

Section Claims.

Context {sigma : Type}.
Variable a : Artifact sigma.

(** C4 (amended): with [n = 0] the extraction asks the artifact for its
    size once and never reads its content; when the size query succeeds
    the result is the empty sequence and no error, and when it fails the
    result is the size error.  This holds for [LastNLinesChunked] at every
    chunk size and for [LastNLines]. *)
Theorem LastNLines_zero fuel chunkSize s :
  let size := (Size a s).1 in
  let r := LastNLinesChunked a fuel 0 chunkSize s in
  trace r = [CallSize size.1 size.2]
  /\ count_Size (trace r) = 1%nat
  /\ count_ReadAt (trace r) = 0%nat
  /\ (size.2 = None -> result r = Returned [] None)
  /\ (forall e, size.2 = Some e -> result r = Returned [] (Some (size_error e)))
  /\ LastNLines a fuel 0 s = LastNLinesChunked a fuel 0 1 s.
Proof.
  unfold LastNLines, LastNLinesChunked, result, trace. simpl.
  destruct (Size a s) as [[sz err] s1]. simpl.
  destruct err as [e|]; simpl.
  { repeat split; [discriminate|congruence]. }
  rewrite scanBack_done by reflexivity. simpl.
  repeat split; discriminate.
Qed.

(** C5: error handling of the extraction.
    - A [ReadAt] that answers with [io.EOF] is no failure: the loop body
      goes on, with the bytes of the buffer (trimmed) put before the
      contents read so far, exactly as after a read without error; and the
      whole call ends the same, with the same calls made, on the artifact
      whose end-of-data signals are hidden.
    - A [ReadAt] that answers with any other error ends the call: it is
      the last call made, and the result is that error wrapped as
      "error reading artifact: ...".
    - A failing [Size] ends the call with the error wrapped as
      "error getting artifact size: ...", and no read is made. *)
Theorem LastNLinesChunked_error_handling fuel n chunkSize s :
  (forall v s0 buf k s1,
     0 <= (window chunkSize v).1 ->
     ReadAt a (replicate (Z.to_nat (window chunkSize v).1) NUL)
       (window chunkSize v).2 s0 = ((buf, k, Some EOF), s1) ->
     exists v',
       loopBody a chunkSize v s0 =
         (Continue v',
          [CallReadAt (window chunkSize v).1 (window chunkSize v).2 k (Some EOF)], s1)
       /\ loopBody (ignoreEOF a) chunkSize v s0 =
         (Continue v',
          [CallReadAt (window chunkSize v).1 (window chunkSize v).2 k None], s1)
       /\ contents v' = Trim buf ++ contents v
       /\ linesInContents v' = Int64.add (linesInContents v) (Count (Trim buf))
       /\ lastRead v' = k
       /\ lastOffset v' = (window chunkSize v).2)
  /\ LastNLinesChunked (ignoreEOF a) fuel n chunkSize s =
       (let '(o, tr, s') := LastNLinesChunked a fuel n chunkSize s in
        (o, map maskEOF tr, s'))
  /\ (forall len off k e,
        In (CallReadAt len off k (Some e))
           (trace (LastNLinesChunked a fuel n chunkSize s)) ->
        e <> EOF ->
        result (LastNLinesChunked a fuel n chunkSize s) =
          Returned [] (Some (ErrorString ("error reading artifact: " +:+ error_msg e)))
        /\ last (trace (LastNLinesChunked a fuel n chunkSize s))
           = Some (CallReadAt len off k (Some e)))
  /\ (forall size e s',
        Size a s = ((size, Some e), s') ->
        LastNLinesChunked a fuel n chunkSize s =
          (Returned []
             (Some (ErrorString ("error getting artifact size: " +:+ error_msg e))),
           [CallSize size (Some e)], s')).
Proof.
  split; [|split; [|split]].
  - intros v s0 buf k s1 Hpos Hr.
    rewrite loopBody_ignoreEOF.
    destruct (loopBody_spec a chunkSize v s0)
      as [Hneg|buf' k' e' s' _ Hr' He|buf' k' err s' _ Hr' Hf].
    + lia.
    + rewrite Hr in Hr'. inversion Hr'; subst. discriminate.
    + rewrite Hr in Hr'. inversion Hr'; subst. eexists. repeat split.
  - apply LastNLinesChunked_ignoreEOF.
  - intros len off k e Hin HnE.
    apply LastNLinesChunked_read_failure; [exact Hin|].
    by destruct e.
  - intros size e s'. apply LastNLinesChunked_size_failure.
Qed.

(** C10: when the size of the artifact equals the chunk size and [n >= 1],
    [LastNLinesChunked] makes its size query and no [ReadAt] call, and
    returns no line and no error: the first offset is 0, so the loop is
    not entered, whatever the artifact holds. *)
Theorem LastNLinesChunked_size_eq_chunk fuel n chunkSize s s' :
  1 <= n ->
  Size a s = ((chunkSize, None), s') ->
  LastNLinesChunked a fuel n chunkSize s
    = (Returned [] None, [CallSize chunkSize None], s')
  /\ count_ReadAt (trace (LastNLinesChunked a fuel n chunkSize s)) = 0%nat.
Proof.
  intros Hn Hs.
  assert (Hrun : LastNLinesChunked a fuel n chunkSize s
                 = (Returned [] None, [CallSize chunkSize None], s')).
  { unfold LastNLinesChunked. rewrite Hs.
    rewrite scanBack_done.
    - change (contents (initLocals chunkSize chunkSize)) with (@nil byte).
      by rewrite lastLines_nil.
    - unfold initLocals. simpl. rewrite Int64_sub_mul_one_self.
      apply andb_false_r. }
  rewrite Hrun. split; reflexivity.
Qed.

End Claims.

Lemma LastNLines_zero_witness :
  result (LastNLinesChunked (plainArtifact abcd) 0 0 3 tt) = Returned [] None
  /\ result (LastNLinesChunked unreachableArtifact 0 0 3 tt)
     = Returned [] (Some (size_error connReset)).
Proof.
  split.
  - apply (LastNLines_zero (plainArtifact abcd) 0 3 tt). reflexivity.
  - apply (LastNLines_zero unreachableArtifact 0 3 tt). reflexivity.
Defined.

(** With [n = 0] on an artifact whose size query fails, the call returns
    the size error: there is an error, whatever [n] is. *)
Lemma LastNLines_zero_size_failure :
  result (LastNLines unreachableArtifact 0 0 tt)
    = Returned []
        (Some (ErrorString "error getting artifact size: connection reset by peer"))
  /\ result (LastNLines unreachableArtifact 0 0 tt) <> Returned [] None.
Proof. split; [reflexivity|discriminate]. Qed.

Lemma LastNLinesChunked_error_handling_witness :
  (exists v',
     loopBody (plainArtifact abcd) 1 (initLocals 8 1) tt
       = (Continue v', [CallReadAt 2 7 1 (Some EOF)], tt)
     /\ contents v' = [LF])
  /\ result (LastNLinesChunked brokenReadArtifact 5 2 3 tt)
     = Returned []
         (Some (ErrorString "error reading artifact: connection reset by peer"))
  /\ LastNLinesChunked unreachableArtifact 5 2 3 tt
     = (Returned []
          (Some (ErrorString "error getting artifact size: connection reset by peer")),
        [CallSize 0 (Some connReset)], tt).
Proof.
  split; [|split].
  - destruct (proj1 (LastNLinesChunked_error_handling (plainArtifact abcd) 0 2 1 tt)
                (initLocals 8 1) tt [LF; NUL] 1 tt)
      as (v' & Hbody & _ & Hcontents & _).
    + vm_compute. discriminate.
    + reflexivity.
    + exists v'. split; [exact Hbody|exact Hcontents].
  - apply (proj1 (proj2 (proj2
      (LastNLinesChunked_error_handling brokenReadArtifact 5 2 3 tt)))
      4 5 0 connReset).
    + vm_compute. right. left. reflexivity.
    + discriminate.
  - apply (proj2 (proj2 (proj2
      (LastNLinesChunked_error_handling unreachableArtifact 5 2 3 tt)))
      0 connReset tt).
    reflexivity.
Defined.

Lemma LastNLinesChunked_size_eq_chunk_witness :
  LastNLinesChunked (plainArtifact abcd) 0 2 8 tt
    = (Returned [] None, [CallSize 8 None], tt).
Proof.
  apply (LastNLinesChunked_size_eq_chunk (plainArtifact abcd) 0 2 8 tt tt).
  - lia.
  - reflexivity.
Defined.

(** * Where the backward scan departs from a full scan *)

(** C1: on the artifact "a\nb\nc\nd\n" with [n = 2] and chunks of one
    byte, the first read asks for two bytes at offset 7 and gets one, the
    second read asks for two bytes at offset 6 and gets the byte at offset
    7 again; the newline is counted twice, the scan stops, and the lines
    returned are "d" and the empty line, where a full scan of the content
    gives "c" and "d". *)
Theorem LastNLinesChunked_differs_from_full_scan :
  LastNLinesChunked (plainArtifact abcd) 8 2 1 tt
    = (Returned ["d"; EmptyString] None,
       [CallSize 8 None; CallReadAt 2 7 1 (Some EOF); CallReadAt 2 6 2 None],
       tt)
  /\ fullScanLastN abcd 2 = ["c"; "d"].
Proof. split; reflexivity. Qed.

(** C2: the last two lines of "a\nb\nc\nd\n" as [LastNLinesChunked]
    returns them for the chunk sizes 1 to 7: the sizes 1, 2 and 3 do not
    give "c" and "d". *)
Theorem LastNLinesChunked_abcd_by_chunk_size :
  map (fun chunkSize => result (LastNLinesChunked (plainArtifact abcd) 8 2 chunkSize tt))
    [1; 2; 3; 4; 5; 6; 7]
  = [ Returned ["d"; EmptyString] None;
      Returned ["c"; "dd"] None;
      Returned [EmptyString; "d"] None;
      Returned ["c"; "d"] None;
      Returned ["c"; "d"] None;
      Returned ["c"; "d"] None;
      Returned ["c"; "d"] None ].
Proof. reflexivity. Qed.

(** C3: an artifact with fewer than [n] lines is not always returned
    whole.  The one line "ab", asked for with [n = 5] in chunks of one
    byte, comes back as "abb"; and [LastNLines] with [n = 2] on one line of
    601 bytes, the size of its chunk, returns no line at all. *)
Theorem LastNLines_fewer_lines_not_whole :
  (scanLines ["a"; "b"]%byte = ["ab"]
   /\ result (LastNLinesChunked (plainArtifact ["a"; "b"]%byte) 8 5 1 tt)
      = Returned ["abb"] None)
  /\ (length (scanLines (replicate 601 "a"%byte)) = 1%nat
      /\ LastNLines (plainArtifact (replicate 601 "a"%byte)) 8 2 tt
         = (Returned [] None, [CallSize 601 None], tt)).
Proof. repeat split; vm_compute; reflexivity. Qed.

(** C6: [LastNLines] with [n = 1] on a compressed artifact of 301 bytes,
    the size of its chunk: no read is attempted and no error comes back. *)
Theorem LastNLines_gzip_failure_not_propagated :
  LastNLines (gzipArtifact (replicate 301 "a"%byte)) 8 1 tt
    = (Returned [] None, [CallSize 301 None], tt)
  /\ ReadAt (gzipArtifact (replicate 301 "a"%byte)) (replicate 302 NUL) 0 tt
     = ((replicate 302 NUL, 0, Some ErrGzipOffsetRead), tt).
Proof. split; vm_compute; reflexivity. Qed.

Section UnsupportedReads.

Context {sigma : Type}.
Variable a : Artifact sigma.


End UnsupportedReads.

(** * An artifact smaller than one chunk *)

Lemma trimLeftNUL_length s : (length (trimLeftNUL s) <= length s)%nat.
Proof.
  induction s as [|b s IH]; simpl; [lia|].
  destruct (Byte.eqb b NUL); simpl; lia.
Qed.

Lemma Trim_length s : (length (Trim s) <= length s)%nat.
Proof.
  unfold Trim. rewrite length_rev.
  etrans; [apply trimLeftNUL_length|].
  rewrite length_rev. apply trimLeftNUL_length.
Qed.

Lemma trimLeftNUL_snoc_NUL s :
  trimLeftNUL (s ++ [NUL]) =
    match trimLeftNUL s with
    | [] => []
    | t => t ++ [NUL]
    end.
Proof.
  induction s as [|b s IH]; simpl; [reflexivity|].
  destruct (Byte.eqb b NUL); [exact IH|reflexivity].
Qed.

(** The zero byte a short read leaves at the end of the buffer is trimmed
    away with the zero bytes of the content itself. *)
Lemma Trim_snoc_NUL s : Trim (s ++ [NUL]) = Trim s.
Proof.
  unfold Trim. rewrite trimLeftNUL_snoc_NUL.
  destruct (trimLeftNUL s) as [|b t]; [reflexivity|].
  rewrite rev_app_distr. reflexivity.
Qed.

Lemma scanTokens_length data : forall cur k,
  (length (scanTokens data cur k) <= length data + 1)%nat.
Proof.
  induction data as [|b rest IH]; intros cur k; simpl.
  - destruct (k =? 0)%N; [simpl; lia|].
    destruct (MaxScanTokenSize <=? k)%N; simpl; lia.
  - destruct (MaxScanTokenSize <=? k)%N; [simpl; lia|].
    destruct (Byte.eqb b LF); simpl.
    + specialize (IH [] 0%N). lia.
    + specialize (IH (b :: cur) (k + 1)%N). lia.
Qed.

Lemma scanLines_length contents :
  (length (scanLines contents) <= length contents + 1)%nat.
Proof. unfold scanLines. rewrite length_map. apply scanTokens_length. Qed.

(** Away from the bounds of [int64], the tail of the function keeps the
    last [n] of the lines scanned. *)
Lemma lastLines_fullScan contents n :
  0 <= n <= Int64.max_signed ->
  Z.of_nat (length contents) < Int64.max_signed ->
  lastLines contents n = Returned (fullScanLastN contents n) None.
Proof.
  intros Hn Hlen. unfold lastLines, fullScanLastN.
  pose proof (scanLines_length contents) as Hl.
  set (lines := scanLines contents) in *.
  destruct (Z.of_nat (length lines) <? n) eqn:Hlt.
  - apply Z.ltb_lt in Hlt.
    replace (length lines - Z.to_nat n)%nat with 0%nat by lia.
    reflexivity.
  - apply Z.ltb_ge in Hlt. int64_small.
    destruct (Z.of_nat (length lines) - n <? 0) eqn:H1; [lia|].
    destruct (Z.of_nat (length lines) <? Z.of_nat (length lines) - n) eqn:H2; [lia|].
    simpl.
    replace (Z.to_nat (Z.of_nat (length lines) - n))
      with (length lines - Z.to_nat n)%nat by lia.
    reflexivity.
Qed.

Lemma contentReadAt_whole content :
  contentReadAt content (replicate (S (length content)) NUL) 0
    = (content ++ [NUL], Z.of_nat (length content), Some EOF).
Proof.
  unfold contentReadAt.
  destruct content as [|b content]; [reflexivity|].
  change (0 <? 0) with false. cbv iota.
  destruct (Z.of_nat (length (b :: content)) <=? 0) eqn:Hle;
    [apply Z.leb_le in Hle; simpl length in Hle; lia|].
  change (Z.to_nat 0) with 0%nat. rewrite drop_0, length_replicate.
  rewrite Nat.min_r by lia.
  rewrite firstn_all, drop_replicate.
  replace (S (length (b :: content)) - length (b :: content))%nat with 1%nat by lia.
  destruct (length (b :: content) <? S (length (b :: content)))%nat eqn:Hlt;
    [reflexivity|].
  apply Nat.ltb_ge in Hlt. lia.
Qed.

(** X15: when the artifact is smaller than a chunk, one read at offset 0 gets
    all of it, and the lines returned are the last [n] lines of the
    content without the zero bytes at its two ends. *)
Theorem LastNLinesChunked_single_chunk content fuel n chunkSize :
  1 <= n <= Int64.max_signed ->
  Z.of_nat (length content) < chunkSize < Int64.max_signed ->
  LastNLinesChunked (plainArtifact content) (S fuel) n chunkSize tt
    = (Returned (fullScanLastN (Trim content) n) None,
       [CallSize (Z.of_nat (length content)) None;
        CallReadAt (Z.of_nat (length content) + 1) 0
          (Z.of_nat (length content)) (Some EOF)],
       tt).
Proof.
  intros Hn Hc.
  set (len := Z.of_nat (length content)) in *.
  assert (Hlen0 : 0 <= len) by (unfold len; lia).
  assert (Hinit : initLocals len chunkSize =
                  {| toRead := chunkSize + 1; chunks := 1; contents := [];
                     linesInContents := 0; offset := len - chunkSize;
                     lastOffset := len - chunkSize; lastRead := 0 |}).
  { unfold initLocals. unfold Int64.mul. rewrite Z.mul_1_l.
    int64_small. reflexivity. }
  assert (Hw : window chunkSize (initLocals len chunkSize) = (len + 1, 0)).
  { rewrite Hinit. unfold window. simpl. int64_small.
    rewrite Z.sub_0_r.
    destruct (len - chunkSize <? 0) eqn:Hneg; [|lia].
    f_equal. lia. }
  unfold LastNLinesChunked.
  change (Size (plainArtifact content) tt) with ((len, @None error), tt).
  cbv beta iota zeta.
  rewrite scanBack_step.
  2:{ rewrite Hinit. simpl. apply andb_true_iff. split.
      - apply Z.ltb_lt. lia.
      - apply negb_true_iff, Z.eqb_neq. lia. }
  unfold loopBody. rewrite Hw.
  destruct (len + 1 <? 0) eqn:Hneg; [lia|].
  replace (Z.to_nat (len + 1)) with (S (length content)) by lia.
  change (ReadAt (plainArtifact content) (replicate (S (length content)) NUL) 0 tt)
    with (contentReadAt content (replicate (S (length content)) NUL) 0, tt).
  rewrite contentReadAt_whole. simpl.
  rewrite scanBack_done by (simpl; apply andb_false_r).
  simpl. rewrite Trim_snoc_NUL, app_nil_r.
  rewrite lastLines_fullScan; [reflexivity|lia|].
  pose proof (Trim_length content). lia.
Qed.

Lemma LastNLinesChunked_single_chunk_witness :
  result (LastNLinesChunked (plainArtifact abcd) 1 2 9 tt) = Returned ["c"; "d"] None.
Proof.
  assert (Hn : 1 <= 2 <= Int64.max_signed)
    by (vm_compute; split; discriminate).
  assert (Hc : Z.of_nat (length abcd) < 9 < Int64.max_signed)
    by (vm_compute; split; reflexivity).
  exact (f_equal result (LastNLinesChunked_single_chunk abcd 0 2 9 Hn Hc)).
Defined.

(** * Termination on artifacts held in memory *)

Lemma contentReadAt_count content p off :
  0 <= off ->
  exists buf err,
    contentReadAt content p off
      = (buf,
         Z.min (Z.of_nat (length p)) (Z.max 0 (Z.of_nat (length content) - off)),
         err)
    /\ read_failed err = false.
Proof.
  intros Hoff. unfold contentReadAt.
  destruct (off <? 0) eqn:Hneg; [lia|].
  destruct (Z.of_nat (length content) <=? off) eqn:Hend.
  - exists p, (Some EOF). split; [|reflexivity].
    f_equal. f_equal. lia.
  - eexists _, _. split.
    + f_equal. f_equal. rewrite length_drop. lia.
    + destruct (_ <? _)%nat; reflexivity.
Qed.

Lemma window_inv size chunkSize v :
  0 <= size < 2 ^ 62 ->
  1 <= chunkSize < 2 ^ 62 ->
  scan_inv size chunkSize v ->
  window chunkSize v =
    if lastOffset v - lastRead v <? 0
    then (lastOffset v - lastRead v + chunkSize + 1, 0)
    else (chunkSize + 1, lastOffset v - lastRead v).
Proof.
  intros Hs Hc (_ & Htr & Hm). unfold window. int64_small.
  destruct (lastOffset v - lastRead v <? 0); [|by rewrite Htr].
  int64_small. reflexivity.
Qed.

Section Termination.

Variable content : list byte.
Variables n chunkSize : Z.
Hypothesis chunk_range : 1 <= chunkSize < 2 ^ 62.
Hypothesis size_range : Z.of_nat (length content) < 2 ^ 62.

(** From locals that satisfy the invariant, the loop over an artifact in
    memory is left after at most as many passes as the next raw offset
    counts bytes, plus one. *)
Lemma scanBack_plain_leaves_loop fuel :
  forall v,
    scan_inv (Z.of_nat (length content)) chunkSize v ->
    Z.max 0 (lastOffset v - lastRead v + 1) < Z.of_nat fuel ->
    exists v' evs,
      scanBack (plainArtifact content) fuel n chunkSize v tt = (inl v', evs, tt).
Proof.
  induction fuel as [|fuel IH]; intros v Hinv Hfuel; [lia|].
  destruct ((linesInContents v <? n) && negb (offset v =? 0)) eqn:Hguard.
  2:{ rewrite scanBack_done by exact Hguard. eauto. }
  rewrite scanBack_step by exact Hguard.
  assert (Hsz : 0 <= Z.of_nat (length content) < 2 ^ 62) by lia.
  pose proof (window_inv _ _ v Hsz chunk_range Hinv) as Hw.
  destruct Hinv as (Hoff & Htr & Hm).
  set (m := lastOffset v - lastRead v) in *.
  assert (Hw1 : 0 <= (window chunkSize v).1)
    by (rewrite Hw; destruct (m <? 0) eqn:?; simpl; lia).
  assert (Hw2 : 0 <= (window chunkSize v).2)
    by (rewrite Hw; destruct (m <? 0) eqn:?; simpl; lia).
  destruct (contentReadAt_count content
              (replicate (Z.to_nat (window chunkSize v).1) NUL)
              (window chunkSize v).2 Hw2) as (buf0 & err0 & Hread & Hok).
  destruct (loopBody_spec (plainArtifact content) chunkSize v tt)
    as [Hneg|buf k e s' _ Hr He|buf k err s' _ Hr Hf].
  - lia.
  - change (ReadAt (plainArtifact content)
              (replicate (Z.to_nat (window chunkSize v).1) NUL)
              (window chunkSize v).2 tt)
      with (contentReadAt content
              (replicate (Z.to_nat (window chunkSize v).1) NUL)
              (window chunkSize v).2, tt) in Hr.
    rewrite Hread in Hr. inversion Hr; subst.
    simpl in Hok. rewrite He in Hok. discriminate.
  - change (ReadAt (plainArtifact content)
              (replicate (Z.to_nat (window chunkSize v).1) NUL)
              (window chunkSize v).2 tt)
      with (contentReadAt content
              (replicate (Z.to_nat (window chunkSize v).1) NUL)
              (window chunkSize v).2, tt) in Hr.
    rewrite Hread in Hr. inversion Hr as [[Hbuf Hk Herr Hs']]. clear Hr.
    rewrite length_replicate in Hk.
    match goal with
    | |- context [scanBack _ fuel n chunkSize ?w tt] => set (v' := w)
    end.
    destruct ((window chunkSize v).2 =? 0) eqn:Hzero.
    + rewrite scanBack_done.
      * eauto.
      * unfold v'. simpl. rewrite Hzero. apply andb_false_r.
    + apply Z.eqb_neq in Hzero.
      assert (Hmpos : 0 < m).
      { rewrite Hw in Hzero. destruct (m <? 0) eqn:?; simpl in Hzero; lia. }
      assert (Hw' : window chunkSize v = (chunkSize + 1, m)).
      { rewrite Hw. destruct (m <? 0) eqn:?; [lia|reflexivity]. }
      rewrite Hw' in Hk. simpl in Hk.
      destruct (IH v') as (v'' & evs & Hrest).
      * unfold scan_inv, v'. simpl. rewrite Hw'. simpl.
        rewrite length_replicate. lia.
      * unfold v'. simpl. rewrite Hw'. simpl.
        rewrite length_replicate. lia.
      * rewrite Hrest. eauto.
Qed.

(** X16: with a chunk of at least one byte, the extraction from an artifact
    held in memory needs no more passes than the artifact has bytes: with
    that much fuel it does not run out. *)
Theorem LastNLinesChunked_terminates fuel :
  (length content < fuel)%nat ->
  result (LastNLinesChunked (plainArtifact content) fuel n chunkSize tt)
    <> OutOfFuel.
Proof.
  intros Hfuel. unfold LastNLinesChunked, result.
  change (Size (plainArtifact content) tt)
    with ((Z.of_nat (length content), @None error), tt).
  cbv beta iota zeta.
  destruct (scanBack_plain_leaves_loop fuel
              (initLocals (Z.of_nat (length content)) chunkSize))
    as (v' & evs & Hrun).
  - unfold scan_inv, initLocals. simpl. unfold Int64.mul.
    rewrite Z.mul_1_l. int64_small. lia.
  - unfold initLocals. simpl. unfold Int64.mul.
    rewrite Z.mul_1_l. int64_small. lia.
  - rewrite Hrun. simpl. unfold lastLines.
    destruct (_ <? n); [discriminate|].
    destruct (_ || _); discriminate.
Qed.

End Termination.

Lemma LastNLinesChunked_terminates_witness :
  result (LastNLinesChunked (plainArtifact abcd) 9 2 1 tt) <> OutOfFuel.
Proof.
  apply (LastNLinesChunked_terminates abcd 2 1); vm_compute; try split;
    first [reflexivity | discriminate | lia].
Defined.

(** * Properties of the lens registry *)

Section RegistryFacts.

Context {art : Type}.
Implicit Types (lens : Lens art) (r : registry art) (name : string).

Lemma GetLens_lookup name r :
  GetLens name r = match lensReg r !! name with
                   | Some lens => (Some lens, None)
                   | None => (None, Some ErrInvalidLensName)
                   end.
Proof. reflexivity. Qed.

(** A registration that returns an error returns the registry it got. *)
Lemma RegisterLens_error_unchanged lens r e r' :
  RegisterLens lens r = (Some e, r') -> r' = r.
Proof.
  unfold RegisterLens.
  destruct (lensReg r !! Name (Config lens)); [congruence|].
  destruct (String.eqb _ _); [congruence|].
  destruct (_ <? _)%N; congruence.
Qed.

(** C7: a failing [RegisterLens] leaves the registry as it was.  When the
    name is taken, the call fails with the already-registered error and
    [GetLens] still returns the lens registered before; when the title is
    empty, the call fails, and [GetLens] for a name that was free still
    fails with [ErrInvalidLensName]; and whenever an error is returned,
    the registry (map and log) is the one passed in. *)
Theorem RegisterLens_atomic_on_failure lens r :
  (forall old, lensReg r !! Name (Config lens) = Some old ->
     RegisterLens lens r =
       (Some (ErrorString ("viewer already registered with name "
                           +:+ Name (Config lens))), r)
     /\ GetLens (Name (Config lens)) (RegisterLens lens r).2 = (Some old, None))
  /\ (Title (Config lens) = EmptyString ->
      (exists e, RegisterLens lens r = (Some e, r))
      /\ (lensReg r !! Name (Config lens) = None ->
          RegisterLens lens r =
            (Some (ErrorString "empty title field in view metadata"), r)
          /\ GetLens (Name (Config lens)) (RegisterLens lens r).2
             = (None, Some ErrInvalidLensName)))
  /\ (forall e r', RegisterLens lens r = (Some e, r') ->
      r' = r /\ lensReg r' = lensReg r).
Proof.
  split; [|split].
  - intros old Hold. unfold RegisterLens, GetLens. rewrite Hold. simpl.
    rewrite Hold. done.
  - intros Htitle. unfold RegisterLens, GetLens. rewrite Htitle. simpl. split.
    + destruct (lensReg r !! Name (Config lens)); eauto.
    + intros Hfree. rewrite Hfree. simpl. rewrite Hfree. done.
  - intros e r' Hreg. apply RegisterLens_error_unchanged in Hreg.
    by subst.
Qed.

(** C8: the comparison [Priority < 0] is false for every lens, [Priority]
    being unsigned, so [RegisterLens] never returns the error
    "priority must be >=0". *)
Theorem RegisterLens_priority_check_dead lens r :
  (Priority (Config lens) <? 0)%N = false
  /\ (RegisterLens lens r).1 <> Some (ErrorString "priority must be >=0").
Proof.
  assert (Hdead : (Priority (Config lens) <? 0)%N = false)
    by (apply N.ltb_ge, N.le_0_l).
  split; [exact Hdead|].
  unfold RegisterLens. rewrite Hdead.
  destruct (lensReg r !! Name (Config lens)); simpl; [discriminate|].
  destruct (String.eqb _ _); simpl; discriminate.
Qed.

(** C9: [UnregisterLens] on a name that is not registered returns (it has
    no error result), [GetLens] for the name fails afterwards with
    [ErrInvalidLensName], and the map is the same: every entry is as
    before. *)
Theorem UnregisterLens_absent name r :
  lensReg r !! name = None ->
  GetLens name (UnregisterLens name r) = (None, Some ErrInvalidLensName)
  /\ lensReg (UnregisterLens name r) = lensReg r
  /\ (forall other, GetLens other (UnregisterLens name r) = GetLens other r).
Proof.
  intros Habs.
  assert (Hsame : lensReg (UnregisterLens name r) = lensReg r)
    by (simpl; by apply delete_id).
  split; [|split].
  - rewrite GetLens_lookup, Hsame, Habs. done.
  - exact Hsame.
  - intros other. by rewrite !GetLens_lookup, Hsame.
Qed.

End RegistryFacts.

Lemma RegisterLens_atomic_on_failure_witness :
  let r := (RegisterLens buildLog emptyRegistry).2 in
  (RegisterLens (untitled "buildlog") r =
     (Some (ErrorString "viewer already registered with name buildlog"), r)
   /\ GetLens "buildlog" (RegisterLens (untitled "buildlog") r).2
      = (Some buildLog, None))
  /\ (RegisterLens (untitled "metadata") r =
        (Some (ErrorString "empty title field in view metadata"), r)
      /\ GetLens "metadata" (RegisterLens (untitled "metadata") r).2
         = (None, Some ErrInvalidLensName)).
Proof.
  intros r. split.
  - apply (RegisterLens_atomic_on_failure (untitled "buildlog") r).
    vm_compute. reflexivity.
  - apply (RegisterLens_atomic_on_failure (untitled "metadata") r).
    + reflexivity.
    + vm_compute. reflexivity.
Defined.

Lemma UnregisterLens_absent_witness :
  GetLens "metadata" (UnregisterLens "metadata" (RegisterLens buildLog emptyRegistry).2)
  = (None, Some ErrInvalidLensName).
Proof.
  apply (UnregisterLens_absent "metadata" (RegisterLens buildLog emptyRegistry).2).
  vm_compute. reflexivity.
Defined.

(** * More on the lens registry *)

Section RegistryMore.

Context {art : Type}.
Implicit Types (lens : Lens art) (r : registry art) (name : string).

Lemma RegisterLens_fresh_eq lens r :
  lensReg r !! Name (Config lens) = None ->
  Title (Config lens) <> EmptyString ->
  RegisterLens lens r =
    (None,
     {| lensReg := <[Name (Config lens) := lens]> (lensReg r);
        logged := logged r ++
          ["Spyglass registered viewer " +:+ Name (Config lens) +:+
           " with title " +:+ Title (Config lens) +:+ "."] |}).
Proof.
  intros Hfree Htitle. unfold RegisterLens. rewrite Hfree.
  apply String.eqb_neq in Htitle. rewrite Htitle.
  assert (Hdead : (Priority (Config lens) <? 0)%N = false)
    by (apply N.ltb_ge, N.le_0_l).
  rewrite Hdead. reflexivity.
Qed.

(** X1: a lens with a title, registered under a free name, is registered: no
    error, [GetLens] finds it under its name, every other name answers as
    before, the map has one entry more, and one line is logged. *)
Theorem RegisterLens_fresh lens r :
  lensReg r !! Name (Config lens) = None ->
  Title (Config lens) <> EmptyString ->
  (RegisterLens lens r).1 = None
  /\ GetLens (Name (Config lens)) (RegisterLens lens r).2 = (Some lens, None)
  /\ (forall other, other <> Name (Config lens) ->
      GetLens other (RegisterLens lens r).2 = GetLens other r)
  /\ size (lensReg (RegisterLens lens r).2) = S (size (lensReg r))
  /\ logged (RegisterLens lens r).2 =
       logged r ++ ["Spyglass registered viewer " +:+ Name (Config lens) +:+
                    " with title " +:+ Title (Config lens) +:+ "."].
Proof.
  intros Hfree Htitle. rewrite RegisterLens_fresh_eq by assumption. simpl.
  repeat split.
  - rewrite GetLens_lookup. simpl. by rewrite lookup_insert_eq.
  - intros other Hne. rewrite !GetLens_lookup. simpl.
    by rewrite lookup_insert_ne.
  - by apply map_size_insert_None.
Qed.

(** X2: [RegisterLens] returns no error exactly when the name is free and the
    title is not empty. *)
Theorem RegisterLens_succeeds_iff lens r :
  (RegisterLens lens r).1 = None
  <-> lensReg r !! Name (Config lens) = None
      /\ Title (Config lens) <> EmptyString.
Proof.
  split.
  - unfold RegisterLens.
    destruct (lensReg r !! Name (Config lens)); [discriminate|].
    destruct (String.eqb (Title (Config lens)) EmptyString) eqn:Ht;
      [discriminate|].
    intros _. split; [reflexivity|]. by apply String.eqb_neq.
  - intros [Hfree Htitle]. by rewrite RegisterLens_fresh_eq.
Qed.


(** X4: after [UnregisterLens], registered or not, [GetLens] fails for the
    name with [ErrInvalidLensName], every other name answers as before,
    and one line is logged. *)
Theorem UnregisterLens_removes name r :
  GetLens name (UnregisterLens name r) = (None, Some ErrInvalidLensName)
  /\ (forall other, other <> name ->
      GetLens other (UnregisterLens name r) = GetLens other r)
  /\ logged (UnregisterLens name r) =
       logged r ++ ["Spyglass unregistered viewer " +:+ name +:+ "."].
Proof.
  repeat split.
  - rewrite GetLens_lookup. simpl. by rewrite lookup_delete_eq.
  - intros other Hne. rewrite !GetLens_lookup. simpl.
    by rewrite lookup_delete_ne.
Qed.

(** X5: a name that was taken is free after [UnregisterLens]: the
    registration that failed as a duplicate now succeeds, and [GetLens]
    returns the new lens. *)
Theorem RegisterLens_after_UnregisterLens lens r old :
  lensReg r !! Name (Config lens) = Some old ->
  Title (Config lens) <> EmptyString ->
  (RegisterLens lens r).1 <> None
  /\ (RegisterLens lens (UnregisterLens (Name (Config lens)) r)).1 = None
  /\ GetLens (Name (Config lens))
       (RegisterLens lens (UnregisterLens (Name (Config lens)) r)).2
     = (Some lens, None).
Proof.
  intros Hold Htitle. split; [|split].
  - unfold RegisterLens. rewrite Hold. discriminate.
  - apply RegisterLens_succeeds_iff. split; [|exact Htitle].
    simpl. apply lookup_delete_eq.
  - apply RegisterLens_fresh; [|exact Htitle].
    simpl. apply lookup_delete_eq.
Qed.

(** X6: two lenses of different names can be registered in either order: each
    call returns the same error or none, and the map is the same. *)
Theorem RegisterLens_commute lens1 lens2 r :
  Name (Config lens1) <> Name (Config lens2) ->
  (RegisterLens lens1 r).1 = (RegisterLens lens1 (RegisterLens lens2 r).2).1
  /\ (RegisterLens lens2 r).1 = (RegisterLens lens2 (RegisterLens lens1 r).2).1
  /\ lensReg (RegisterLens lens2 (RegisterLens lens1 r).2).2
     = lensReg (RegisterLens lens1 (RegisterLens lens2 r).2).2.
Proof.
  intros Hne.
  assert (Hdead : forall lens, (Priority (Config lens) <? 0)%N = false)
    by (intros; apply N.ltb_ge, N.le_0_l).
  unfold RegisterLens.
  destruct (lensReg r !! Name (Config lens1)) as [old1|] eqn:H1;
    destruct (lensReg r !! Name (Config lens2)) as [old2|] eqn:H2;
    simpl; rewrite ?H1, ?H2; simpl.
  - done.
  - destruct (String.eqb (Title (Config lens2)) EmptyString); simpl;
      rewrite ?Hdead; simpl; rewrite ?H1, ?H2, ?lookup_insert_ne, ?H1 by done;
      done.
  - destruct (String.eqb (Title (Config lens1)) EmptyString); simpl;
      rewrite ?Hdead; simpl; rewrite ?H1, ?H2, ?lookup_insert_ne, ?H2 by done;
      done.
  - destruct (String.eqb (Title (Config lens1)) EmptyString) eqn:T1;
      destruct (String.eqb (Title (Config lens2)) EmptyString) eqn:T2;
      simpl; rewrite ?Hdead; simpl;
      rewrite ?H1, ?H2, ?lookup_insert_ne, ?H1, ?H2 by done;
      simpl; rewrite ?T1, ?T2, ?Hdead; simpl; try done.
    repeat split. by apply insert_insert_ne.
Qed.

Lemma keyed_by_name_applyOp r op :
  keyed_by_name r -> keyed_by_name (applyOp r op).
Proof.
  intros Hwf. destruct op as [lens|name]; simpl.
  - destruct (RegisterLens lens r) as [[e|] r'] eqn:Hreg.
    + apply RegisterLens_error_unchanged in Hreg. by subst.
    + assert (Hok : (RegisterLens lens r).1 = None) by (by rewrite Hreg).
      apply RegisterLens_succeeds_iff in Hok as [Hfree Htitle].
      rewrite RegisterLens_fresh_eq in Hreg by assumption.
      inversion Hreg; subst. intros k l. simpl.
      destruct (decide (Name (Config lens) = k)) as [<-|Hne].
      * rewrite lookup_insert_eq. intros [= <-]. done.
      * rewrite lookup_insert_ne by done. apply Hwf.
  - intros k l. simpl.
    destruct (decide (name = k)) as [<-|Hne].
    + by rewrite lookup_delete_eq.
    + rewrite lookup_delete_ne by done. apply Hwf.
Qed.

(** X7: whatever registrations and unregistrations were made since the empty
    registry, every lens [GetLens] returns was registered under the name
    of its own config and has a title that is not empty. *)
Theorem registry_keyed_by_name (ops : list (regOp art)) name lens :
  GetLens name (runOps ops emptyRegistry) = (Some lens, None) ->
  Name (Config lens) = name /\ Title (Config lens) <> EmptyString.
Proof.
  assert (Hall : forall (l : list (regOp art)) r,
             keyed_by_name r -> keyed_by_name (runOps l r)).
  { induction l as [|op l IH]; intros r Hwf; simpl; [exact Hwf|].
    apply IH, keyed_by_name_applyOp, Hwf. }
  intros Hget. rewrite GetLens_lookup in Hget.
  destruct (lensReg (runOps ops emptyRegistry) !! name) as [l|] eqn:Hl;
    [|discriminate].
  inversion Hget; subst.
  apply (Hall ops emptyRegistry); [|exact Hl].
  intros k l'. simpl. by rewrite lookup_empty.
Qed.

End RegistryMore.

Lemma RegisterLens_fresh_witness :
  (RegisterLens metadataLens (RegisterLens buildLog emptyRegistry).2).1 = None
  /\ GetLens "metadata"
       (RegisterLens metadataLens (RegisterLens buildLog emptyRegistry).2).2
     = (Some metadataLens, None).
Proof.
  assert (Hfree : lensReg (RegisterLens buildLog emptyRegistry).2
                    !! Name (Config metadataLens) = None)
    by (vm_compute; reflexivity).
  assert (Htitle : Title (Config metadataLens) <> EmptyString)
    by discriminate.
  destruct (RegisterLens_fresh metadataLens
              (RegisterLens buildLog emptyRegistry).2 Hfree Htitle)
    as (Hok & Hget & _).
  split; [exact Hok|exact Hget].
Defined.

Lemma RegisterLens_succeeds_iff_witness :
  (RegisterLens buildLog emptyRegistry).1 = None.
Proof.
  apply (RegisterLens_succeeds_iff buildLog emptyRegistry).
  split; [vm_compute; reflexivity|discriminate].
Defined.


Lemma UnregisterLens_removes_witness :
  GetLens "buildlog"
    (UnregisterLens "buildlog" (RegisterLens buildLog emptyRegistry).2)
    = (None, Some ErrInvalidLensName)
  /\ GetLens "buildlog"
       (UnregisterLens "metadata" (RegisterLens buildLog emptyRegistry).2)
     = GetLens "buildlog" (RegisterLens buildLog emptyRegistry).2.
Proof.
  split.
  - apply (UnregisterLens_removes "buildlog"
             (RegisterLens buildLog emptyRegistry).2).
  - apply (UnregisterLens_removes "metadata"
             (RegisterLens buildLog emptyRegistry).2).
    discriminate.
Defined.

Lemma RegisterLens_after_UnregisterLens_witness :
  (RegisterLens buildLog (RegisterLens buildLog emptyRegistry).2).1 <> None
  /\ (RegisterLens buildLog
        (UnregisterLens "buildlog" (RegisterLens buildLog emptyRegistry).2)).1
     = None.
Proof.
  assert (Hold : lensReg (RegisterLens buildLog emptyRegistry).2
                   !! Name (Config buildLog) = Some buildLog)
    by (vm_compute; reflexivity).
  assert (Htitle : Title (Config buildLog) <> EmptyString) by discriminate.
  destruct (RegisterLens_after_UnregisterLens buildLog
              (RegisterLens buildLog emptyRegistry).2 buildLog Hold Htitle)
    as (Hdup & Hok & _).
  split; [exact Hdup|exact Hok].
Defined.

Lemma RegisterLens_commute_witness :
  lensReg (RegisterLens metadataLens (RegisterLens buildLog emptyRegistry).2).2
  = lensReg (RegisterLens buildLog (RegisterLens metadataLens emptyRegistry).2).2.
Proof.
  apply (RegisterLens_commute buildLog metadataLens emptyRegistry).
  discriminate.
Defined.

Lemma registry_keyed_by_name_witness :
  Name (Config buildLog) = "buildlog"
  /\ Title (Config buildLog) <> EmptyString.
Proof.
  apply (registry_keyed_by_name
           [OpRegister (untitled "metadata"); OpRegister buildLog;
            OpUnregister "metadata"; OpRegister (untitled "buildlog")]
           "buildlog" buildLog).
  vm_compute. reflexivity.
Defined.

(** * The calls the extraction makes, for every artifact *)

Lemma window_offset_nonneg chunkSize v : 0 <= (window chunkSize v).2.
Proof.
  unfold window.
  destruct (Int64.sub (lastOffset v) (lastRead v) <? 0) eqn:Hneg; simpl; lia.
Qed.

Lemma count_Size_reads reads :
  Forall (fun ev => is_CallReadAt ev = true) reads ->
  count_Size reads = 0%nat /\ count_ReadAt reads = length reads.
Proof.
  unfold count_Size, count_ReadAt.
  induction 1 as [|ev reads Hev _ [IH1 IH2]]; [done|].
  destruct ev; [discriminate|].
  rewrite filter_cons_False by (simpl; discriminate).
  rewrite filter_cons_True by reflexivity.
  simpl. split; [exact IH1|by rewrite IH2].
Qed.

Section Calls.

Context {sigma : Type}.
Variable a : Artifact sigma.

Lemma scanBack_reads fuel n chunkSize :
  forall v s,
    Forall (fun ev => is_CallReadAt ev = true) (scanBack a fuel n chunkSize v s).1.2
    /\ Forall read_in_bounds (scanBack a fuel n chunkSize v s).1.2.
Proof.
  induction fuel as [|fuel IH]; intros v s.
  - simpl. destruct (_ && _); simpl; split; constructor.
  - destruct ((linesInContents v <? n) && negb (offset v =? 0)) eqn:Hc.
    2:{ rewrite scanBack_done by exact Hc. simpl. split; constructor. }
    rewrite scanBack_step by exact Hc.
    pose proof (window_offset_nonneg chunkSize v) as Hoff.
    destruct (loopBody_spec a chunkSize v s)
      as [Hneg|buf k e s1 Hpos Hr He|buf k err s1 Hpos Hr Hf].
    + simpl. split; constructor.
    + simpl. split; repeat constructor; assumption.
    + match goal with
      | |- context [scanBack a fuel n chunkSize ?w s1] =>
          specialize (IH w s1);
          destruct (scanBack a fuel n chunkSize w s1) as [[r evs] s2]
      end.
      simpl in *. destruct IH as [IH1 IH2].
      split; constructor; try assumption; try reflexivity.
      split; assumption.
Qed.

(** X8: every call asks the artifact for its size exactly once, before
    anything else; whatever follows in the trace is a [ReadAt]. *)
Theorem LastNLinesChunked_one_size_query fuel n chunkSize s :
  exists reads,
    trace (LastNLinesChunked a fuel n chunkSize s)
      = CallSize (Size a s).1.1 (Size a s).1.2 :: reads
    /\ Forall (fun ev => is_CallReadAt ev = true) reads
    /\ count_Size (trace (LastNLinesChunked a fuel n chunkSize s)) = 1%nat
    /\ count_ReadAt (trace (LastNLinesChunked a fuel n chunkSize s))
       = length reads.
Proof.
  unfold LastNLinesChunked, trace.
  destruct (Size a s) as [[sz err] s1]. simpl.
  destruct err as [e|]; simpl.
  { exists []. repeat split. constructor. }
  pose proof (scanBack_reads fuel n chunkSize (initLocals sz chunkSize) s1)
    as [Hreads _].
  destruct (scanBack a fuel n chunkSize (initLocals sz chunkSize) s1)
    as [[r evs] s2].
  simpl in Hreads.
  destruct (count_Size_reads evs Hreads) as [Hc1 Hc2].
  assert (Hs : count_Size (CallSize sz None :: evs) = 1%nat).
  { unfold count_Size in *. rewrite filter_cons_True by reflexivity.
    simpl. by rewrite Hc1. }
  assert (Hr : count_ReadAt (CallSize sz None :: evs) = length evs).
  { unfold count_ReadAt in *.
    rewrite filter_cons_False by (simpl; discriminate). exact Hc2. }
  exists evs. destruct r; simpl; auto.
Qed.

(** X9: no [ReadAt] is ever made at a negative offset or with a buffer of
    negative length. *)
Theorem LastNLinesChunked_reads_in_bounds fuel n chunkSize s :
  Forall read_in_bounds (trace (LastNLinesChunked a fuel n chunkSize s)).
Proof.
  unfold LastNLinesChunked, trace.
  destruct (Size a s) as [[sz err] s1]. simpl.
  destruct err as [e|]; simpl.
  { repeat constructor. }
  pose proof (scanBack_reads fuel n chunkSize (initLocals sz chunkSize) s1)
    as [_ Hreads].
  destruct (scanBack a fuel n chunkSize (initLocals sz chunkSize) s1)
    as [[r evs] s2].
  simpl in Hreads. destruct r; simpl; constructor; simpl; auto.
Qed.

Lemma scanBack_error fuel n chunkSize :
  forall v s r evs s' lines e,
    scanBack a fuel n chunkSize v s = (r, evs, s') ->
    r = inr (Returned lines (Some e)) ->
    lines = []
    /\ exists e0 len off k,
         e = read_error e0 /\ is_EOF e0 = false
         /\ last evs = Some (CallReadAt len off k (Some e0)).
Proof.
  induction fuel as [|fuel IH]; intros v s r evs s' lines e Hrun Hr.
  - simpl in Hrun. destruct (_ && _); inversion Hrun; subst; discriminate.
  - destruct ((linesInContents v <? n) && negb (offset v =? 0)) eqn:Hc.
    2:{ rewrite scanBack_done in Hrun by exact Hc.
        inversion Hrun; subst; discriminate. }
    rewrite scanBack_step in Hrun by exact Hc.
    destruct (loopBody_spec a chunkSize v s)
      as [Hneg|buf k e' s1 Hpos Hrd He|buf k err s1 Hpos Hrd Hf].
    + inversion Hrun; subst; discriminate.
    + inversion Hrun; subst. inversion H0; subst.
      split; [reflexivity|]. eauto 10.
    + destruct (scanBack a fuel n chunkSize _ s1) as [[r1 evs1] s2] eqn:Hrest.
      inversion Hrun; subst.
      destruct (IH _ _ _ _ _ _ _ Hrest eq_refl)
        as (Hl & e0 & len & off & k0 & He & HnE & Hlast).
      split; [exact Hl|]. exists e0, len, off, k0.
      split; [exact He|]. split; [exact HnE|].
      change (last ([CallReadAt (window chunkSize v).1
                       (window chunkSize v).2 k err] ++ evs1)
              = Some (CallReadAt len off k0 (Some e0))).
      rewrite last_app, Hlast. done.
Qed.

(** X10: whenever an error is returned, no lines are, and the error is a fresh
    one made of a message: the error of the size query, or of the last
    read, wrapped.  It is never [io.EOF], and it is never the artifact's
    own error value, so it is none of the sentinels of the package. *)
Theorem LastNLinesChunked_error_is_wrapped fuel n chunkSize s lines e :
  result (LastNLinesChunked a fuel n chunkSize s) = Returned lines (Some e) ->
  lines = []
  /\ (exists e0,
        (e = size_error e0 /\ (Size a s).1.2 = Some e0)
        \/ (e = read_error e0 /\ e0 <> EOF
            /\ exists len off k,
                 last (trace (LastNLinesChunked a fuel n chunkSize s))
                   = Some (CallReadAt len off k (Some e0))))
  /\ (exists msg, e = ErrorString msg)
  /\ e <> ErrGzipOffsetRead.
Proof.
  unfold LastNLinesChunked, result, trace.
  destruct (Size a s) as [[sz err] s1]. simpl.
  destruct err as [e0|]; simpl.
  { intros [= <- <-]. repeat split; eauto; try discriminate. }
  destruct (scanBack a fuel n chunkSize (initLocals sz chunkSize) s1)
    as [[r evs] s2] eqn:Hrun.
  destruct r as [v|o]; simpl.
  - unfold lastLines. destruct (_ <? n); [discriminate|].
    destruct (_ || _); discriminate.
  - intros ->.
    destruct (scanBack_error _ _ _ _ _ _ _ _ _ _ Hrun eq_refl)
      as (Hl & e0 & len & off & k & He & HnE & Hlast).
    subst. repeat split.
    + exists e0. right. repeat split.
      * intros ->. discriminate.
      * exists len, off, k. destruct evs; [discriminate|exact Hlast].
    + eauto.
    + discriminate.
Qed.

(** X11: a negative [n] makes the call panic once the size is known: the loop
    is not entered, and [lines[l-n:]] is out of bounds. *)
Theorem LastNLinesChunked_negative_n fuel n chunkSize s size s' :
  n < 0 ->
  Int64.in_range n ->
  Size a s = ((size, None), s') ->
  LastNLinesChunked a fuel n chunkSize s
    = (Panicked "slice bounds out of range", [CallSize size None], s').
Proof.
  intros Hn Hrange Hs. unfold LastNLinesChunked. rewrite Hs.
  rewrite scanBack_done.
  2:{ unfold initLocals. simpl.
      destruct (0 <? n) eqn:Hlt; [lia|reflexivity]. }
  change (contents (initLocals size chunkSize)) with (@nil byte).
  unfold lastLines. change (scanLines []) with (@nil string).
  change (Z.of_nat (length (@nil string))) with 0.
  destruct (0 <? n) eqn:Hlt; [lia|].
  assert (Hfrom : Int64.sub 0 n <> 0).
  { unfold Int64.in_range, Int64.min_signed, Int64.max_signed in Hrange.
    destruct (Z.eq_dec n (- 2 ^ 63)) as [->|Hmin]; [vm_compute; discriminate|].
    int64_small. lia. }
  destruct ((Int64.sub 0 n <? 0) || (0 <? Int64.sub 0 n)) eqn:Hb;
    [reflexivity|].
  apply orb_false_iff in Hb as [H1 H2]. lia.
Qed.

End Calls.

Lemma LastNLinesChunked_error_is_wrapped_witness :
  exists msg, read_error ErrGzipOffsetRead = ErrorString msg.
Proof.
  assert (Hrun : result (LastNLinesChunked (gzipArtifact abcd) 3 2 3 tt)
                 = Returned [] (Some (read_error ErrGzipOffsetRead)))
    by reflexivity.
  destruct (LastNLinesChunked_error_is_wrapped (gzipArtifact abcd) 3 2 3 tt
              [] (read_error ErrGzipOffsetRead) Hrun)
    as (_ & _ & Hmsg & _).
  exact Hmsg.
Defined.

Lemma LastNLinesChunked_negative_n_witness :
  LastNLinesChunked (plainArtifact abcd) 0 (-1) 3 tt
    = (Panicked "slice bounds out of range", [CallSize 8 None], tt).
Proof.
  apply (LastNLinesChunked_negative_n (plainArtifact abcd) 0 (-1) 3 tt 8 tt).
  - lia.
  - vm_compute. split; discriminate.
  - reflexivity.
Defined.


(** * Chunk sizes that are not positive *)

Section BadChunks.

Variable content : list byte.
Variable n : Z.
Hypothesis n_pos : 1 <= n.
Hypothesis size_range : Z.of_nat (length content) < 2 ^ 62.

Lemma scanBack_stuck fuel :
  content <> [] ->
  forall chunks0,
    (scanBack (plainArtifact content) fuel n 0
       (stuckLocals (Z.of_nat (length content)) chunks0) tt).1.1
    = inr OutOfFuel.
Proof.
  intros Hne.
  assert (Hlen : 0 < Z.of_nat (length content))
    by (destruct content; [done|simpl; lia]).
  induction fuel as [|fuel IH]; intros chunks0.
  - simpl. destruct (0 <? n) eqn:Hn; [|lia].
    destruct (Z.of_nat (length content) =? 0) eqn:Hz; [lia|reflexivity].
  - rewrite scanBack_step.
    2:{ simpl. apply andb_true_iff. split; [apply Z.ltb_lt; lia|].
        apply negb_true_iff, Z.eqb_neq. lia. }
    unfold loopBody.
    assert (Hw : window 0 (stuckLocals (Z.of_nat (length content)) chunks0)
                 = (1, Z.of_nat (length content))).
    { unfold window. simpl. int64_small. rewrite Z.sub_0_r.
      destruct (Z.of_nat (length content) <? 0) eqn:Hneg; [lia|reflexivity]. }
    rewrite Hw. change (1 <? 0) with false. cbv iota.
    change (ReadAt (plainArtifact content) (replicate (Z.to_nat 1) NUL)
              (Z.of_nat (length content)) tt)
      with (contentReadAt content [NUL] (Z.of_nat (length content)), tt).
    unfold contentReadAt.
    destruct (Z.of_nat (length content) <? 0) eqn:Hneg; [lia|].
    rewrite Z.leb_refl. simpl.
    change (Int64.add 0 0) with 0.
    specialize (IH (Int64.add chunks0 1)). unfold stuckLocals in IH.
    destruct (scanBack (plainArtifact content) fuel n 0 _ tt) as [[r evs] s2].
    simpl in *. exact IH.
Qed.

(** X13: with a chunk size of 0, the extraction of [n >= 1] lines from an
    artifact that is not empty never ends: each pass reads no byte at the
    end of the artifact and leaves the offset where it was, so no amount
    of fuel is enough. *)
Theorem LastNLinesChunked_zero_chunk_diverges fuel :
  content <> [] ->
  result (LastNLinesChunked (plainArtifact content) fuel n 0 tt) = OutOfFuel.
Proof.
  intros Hne. unfold LastNLinesChunked, result.
  change (Size (plainArtifact content) tt)
    with ((Z.of_nat (length content), @None error), tt).
  cbv beta iota zeta.
  assert (Hinit : initLocals (Z.of_nat (length content)) 0
                  = stuckLocals (Z.of_nat (length content)) 1).
  { unfold initLocals, stuckLocals. change (Int64.add 0 1) with 1.
    change (Int64.mul 1 0) with 0. int64_small.
    rewrite Z.sub_0_r. reflexivity. }
  rewrite Hinit.
  pose proof (scanBack_stuck fuel Hne 1) as Hstuck.
  destruct (scanBack (plainArtifact content) fuel n 0 _ tt) as [[r evs] s2].
  simpl in Hstuck. subst r. reflexivity.
Qed.


End BadChunks.

Lemma LastNLinesChunked_zero_chunk_diverges_witness :
  result (LastNLinesChunked (plainArtifact abcd) 1000 2 0 tt) = OutOfFuel.
Proof.
  apply (LastNLinesChunked_zero_chunk_diverges abcd 2).
  - lia.
  - vm_compute. reflexivity.
  - discriminate.
Defined.


(** * The lines kept, and the default chunk size *)



(** X18: the tail of the function, for [n >= 0]: it does not panic, and what
    it returns are the last lines of the scan, all of them when there are
    fewer than [n] and [n] of them otherwise. *)
Theorem lastLines_suffix contents n :
  0 <= n <= Int64.max_signed ->
  Z.of_nat (length contents) < Int64.max_signed ->
  exists dropped lines,
    lastLines contents n = Returned lines None
    /\ scanLines contents = dropped ++ lines
    /\ length lines = Nat.min (length (scanLines contents)) (Z.to_nat n).
Proof.
  intros Hn Hlen.
  exists (take (length (scanLines contents) - Z.to_nat n) (scanLines contents)),
         (fullScanLastN contents n).
  split; [by apply lastLines_fullScan|].
  unfold fullScanLastN. split.
  - by rewrite take_drop.
  - rewrite length_drop. lia.
Qed.


Lemma lastLines_suffix_witness :
  exists dropped lines,
    lastLines abcd 3 = Returned lines None
    /\ scanLines abcd = dropped ++ lines
    /\ length lines = Nat.min (length (scanLines abcd)) (Z.to_nat 3).
Proof.
  apply (lastLines_suffix abcd 3).
  - vm_compute. split; discriminate.
  - vm_compute. reflexivity.
Defined.


(** * An artifact larger than one chunk *)

Lemma Count_bounds s : 0 <= Count s <= Z.of_nat (length s).
Proof.
  induction s as [|b s IH]; simpl Count; simpl length; [lia|].
  destruct (Byte.eqb b LF); lia.
Qed.

Section LargerThanChunk.

Variable content : list byte.
Variables n chunkSize : Z.
Hypothesis chunk_range : 1 <= chunkSize < Z.of_nat (length content).
Hypothesis size_range : Z.of_nat (length content) < 2 ^ 62.

Lemma contentReadAt_tail :
  contentReadAt content (replicate (Z.to_nat (chunkSize + 1)) NUL)
    (Z.of_nat (length content) - chunkSize)
  = (lastBytes content chunkSize ++ [NUL], chunkSize, Some EOF).
Proof.
  unfold contentReadAt.
  destruct (Z.of_nat (length content) - chunkSize <? 0) eqn:Hneg; [lia|].
  destruct (Z.of_nat (length content) <=? Z.of_nat (length content) - chunkSize)
    eqn:Hend; [lia|].
  fold (lastBytes content chunkSize).
  assert (Htail : length (lastBytes content chunkSize) = Z.to_nat chunkSize)
    by (unfold lastBytes; rewrite length_drop; lia).
  rewrite length_replicate, Htail.
  replace (Nat.min (Z.to_nat (chunkSize + 1)) (Z.to_nat chunkSize))
    with (Z.to_nat chunkSize) by lia.
  rewrite take_ge by lia.
  rewrite drop_replicate.
  replace (Z.to_nat (chunkSize + 1) - Z.to_nat chunkSize)%nat with 1%nat by lia.
  destruct (Z.to_nat chunkSize <? Z.to_nat (chunkSize + 1))%nat eqn:Hlt.
  - simpl. f_equal. f_equal. lia.
  - apply Nat.ltb_ge in Hlt. lia.
Qed.

Lemma Count_tail_range :
  0 <= Count (Trim (lastBytes content chunkSize)) < 2 ^ 62.
Proof.
  pose proof (Count_bounds (Trim (lastBytes content chunkSize))) as Hc.
  pose proof (Trim_length (lastBytes content chunkSize)) as Ht.
  assert (Htail : length (lastBytes content chunkSize) = Z.to_nat chunkSize)
    by (unfold lastBytes; rewrite length_drop; lia).
  lia.
Qed.

(** The first pass reads the last [chunkSize] bytes, asking for one byte
    more than there is. *)
Lemma loopBody_first_pass :
  loopBody (plainArtifact content) chunkSize
    (initLocals (Z.of_nat (length content)) chunkSize) tt
  = (Continue {| toRead := chunkSize + 1;
                 chunks := 2;
                 contents := Trim (lastBytes content chunkSize);
                 linesInContents := Count (Trim (lastBytes content chunkSize));
                 offset := Z.of_nat (length content) - chunkSize;
                 lastOffset := Z.of_nat (length content) - chunkSize;
                 lastRead := chunkSize |},
     [CallReadAt (chunkSize + 1) (Z.of_nat (length content) - chunkSize)
        chunkSize (Some EOF)],
     tt).
Proof.
  pose proof Count_tail_range as Hcount.
  assert (Hinit : initLocals (Z.of_nat (length content)) chunkSize =
                  {| toRead := chunkSize + 1; chunks := 1; contents := [];
                     linesInContents := 0;
                     offset := Z.of_nat (length content) - chunkSize;
                     lastOffset := Z.of_nat (length content) - chunkSize;
                     lastRead := 0 |}).
  { unfold initLocals. unfold Int64.mul. rewrite Z.mul_1_l.
    int64_small. reflexivity. }
  rewrite Hinit. unfold loopBody, window. simpl.
  int64_small. rewrite Z.sub_0_r.
  destruct (Z.of_nat (length content) - chunkSize <? 0) eqn:Hneg; [lia|].
  destruct (chunkSize + 1 <? 0) eqn:Hlen; [lia|].
  change (ReadAt (plainArtifact content)
            (replicate (Z.to_nat (chunkSize + 1)) NUL)
            (Z.of_nat (length content) - chunkSize) tt)
    with (contentReadAt content (replicate (Z.to_nat (chunkSize + 1)) NUL)
            (Z.of_nat (length content) - chunkSize), tt).
  rewrite contentReadAt_tail. simpl.
  rewrite Trim_snoc_NUL, app_nil_r.
  int64_small. reflexivity.
Qed.

Lemma scanBack_first_pass fuel :
  1 <= n ->
  scanBack (plainArtifact content) (S fuel) n chunkSize
    (initLocals (Z.of_nat (length content)) chunkSize) tt
  = (let '(r, evs, s) :=
       scanBack (plainArtifact content) fuel n chunkSize
         {| toRead := chunkSize + 1;
            chunks := 2;
            contents := Trim (lastBytes content chunkSize);
            linesInContents := Count (Trim (lastBytes content chunkSize));
            offset := Z.of_nat (length content) - chunkSize;
            lastOffset := Z.of_nat (length content) - chunkSize;
            lastRead := chunkSize |} tt in
     (r,
      [CallReadAt (chunkSize + 1) (Z.of_nat (length content) - chunkSize)
         chunkSize (Some EOF)] ++ evs,
      s)).
Proof.
  intros Hn. rewrite scanBack_step.
  - rewrite loopBody_first_pass. reflexivity.
  - unfold initLocals. simpl. apply andb_true_iff. split.
    + apply Z.ltb_lt. lia.
    + apply negb_true_iff, Z.eqb_neq. unfold Int64.mul. rewrite Z.mul_1_l.
      int64_small. lia.
Qed.

(** X19: when the last [chunkSize] bytes of the artifact hold at least [n]
    newlines, the extraction makes that one read and no other, and returns
    the last [n] lines of those bytes. *)
Theorem LastNLinesChunked_one_chunk_enough fuel :
  1 <= n <= Count (Trim (lastBytes content chunkSize)) ->
  LastNLinesChunked (plainArtifact content) (S fuel) n chunkSize tt
    = (Returned (fullScanLastN (Trim (lastBytes content chunkSize)) n) None,
       [CallSize (Z.of_nat (length content)) None;
        CallReadAt (chunkSize + 1) (Z.of_nat (length content) - chunkSize)
          chunkSize (Some EOF)],
       tt).
Proof.
  intros Hn. pose proof Count_tail_range as Hcount.
  unfold LastNLinesChunked.
  change (Size (plainArtifact content) tt)
    with ((Z.of_nat (length content), @None error), tt).
  cbv beta iota zeta.
  rewrite scanBack_first_pass by lia.
  rewrite scanBack_done.
  2:{ simpl. destruct (Count (Trim (lastBytes content chunkSize)) <? n) eqn:Hlt; [lia|reflexivity]. }
  simpl. rewrite lastLines_fullScan; [reflexivity| |].
  - unfold Int64.max_signed. lia.
  - pose proof (Trim_length (lastBytes content chunkSize)) as Ht.
    assert (Htail : length (lastBytes content chunkSize) = Z.to_nat chunkSize)
      by (unfold lastBytes; rewrite length_drop; lia).
    unfold Int64.max_signed. lia.
Qed.

(** X20: when the last [chunkSize] bytes hold fewer than [n] newlines, a second
    read follows, and its window ends one byte after the start of the
    first: the byte at offset [size - chunkSize] is read twice. *)
Theorem LastNLinesChunked_second_read_overlaps fuel :
  Count (Trim (lastBytes content chunkSize)) < n ->
  exists len off k err rest,
    trace (LastNLinesChunked (plainArtifact content) (S (S fuel)) n chunkSize tt)
      = CallSize (Z.of_nat (length content)) None
        :: CallReadAt (chunkSize + 1) (Z.of_nat (length content) - chunkSize)
             chunkSize (Some EOF)
        :: CallReadAt len off k err :: rest
    /\ off = Z.max 0 (Z.of_nat (length content) - 2 * chunkSize)
    /\ off + len = Z.of_nat (length content) - chunkSize + 1.
Proof.
  intros Hn. pose proof Count_tail_range as Hcount.
  unfold LastNLinesChunked, trace.
  change (Size (plainArtifact content) tt)
    with ((Z.of_nat (length content), @None error), tt).
  cbv beta iota zeta.
  rewrite scanBack_first_pass by lia.
  match goal with
  | |- context [scanBack _ (S fuel) n chunkSize ?w tt] => set (v1 := w)
  end.
  assert (Hw : window chunkSize v1 =
               if Z.of_nat (length content) - 2 * chunkSize <? 0
               then (Z.of_nat (length content) - chunkSize + 1, 0)
               else (chunkSize + 1, Z.of_nat (length content) - 2 * chunkSize)).
  { unfold window, v1. simpl. int64_small.
    replace (Z.of_nat (length content) - chunkSize - chunkSize)
      with (Z.of_nat (length content) - 2 * chunkSize) by lia.
    destruct (Z.of_nat (length content) - 2 * chunkSize <? 0) eqn:Hneg;
      [|reflexivity].
    int64_small. f_equal. lia. }
  rewrite scanBack_step.
  2:{ unfold v1. simpl. apply andb_true_iff. split.
      - apply Z.ltb_lt. lia.
      - apply negb_true_iff, Z.eqb_neq. lia. }
  assert (Hw2 : 0 <= (window chunkSize v1).2) by apply window_offset_nonneg.
  destruct (contentReadAt_count content
              (replicate (Z.to_nat (window chunkSize v1).1) NUL)
              (window chunkSize v1).2 Hw2) as (buf0 & err0 & Hread & Hok).
  assert (Hbounds : (window chunkSize v1).2
                      = Z.max 0 (Z.of_nat (length content) - 2 * chunkSize)
                    /\ (window chunkSize v1).2 + (window chunkSize v1).1
                       = Z.of_nat (length content) - chunkSize + 1).
  { rewrite Hw.
    destruct (Z.of_nat (length content) - 2 * chunkSize <? 0) eqn:Hneg;
      simpl; lia. }
  destruct (loopBody_spec (plainArtifact content) chunkSize v1 tt)
    as [Hneg|buf k e s' _ Hr He|buf k err s' _ Hr Hf].
  - lia.
  - change (ReadAt (plainArtifact content)
              (replicate (Z.to_nat (window chunkSize v1).1) NUL)
              (window chunkSize v1).2 tt)
      with (contentReadAt content
              (replicate (Z.to_nat (window chunkSize v1).1) NUL)
              (window chunkSize v1).2, tt) in Hr.
    rewrite Hread in Hr. inversion Hr; subst.
    simpl in Hok. rewrite He in Hok. discriminate.
  - destruct (scanBack (plainArtifact content) fuel n chunkSize _ s')
      as [[r evs] s2].
    exists (window chunkSize v1).1, (window chunkSize v1).2, k, err, evs.
    split; [destruct r; reflexivity|exact Hbounds].
Qed.

End LargerThanChunk.

Lemma LastNLinesChunked_one_chunk_enough_witness :
  LastNLinesChunked (plainArtifact abcd) 1 2 4 tt
    = (Returned ["c"; "d"] None,
       [CallSize 8 None; CallReadAt 5 4 4 (Some EOF)], tt).
Proof.
  apply (LastNLinesChunked_one_chunk_enough abcd 2 4).
  - vm_compute. split; [discriminate|reflexivity].
  - vm_compute. reflexivity.
  - vm_compute. split; discriminate.
Defined.

Lemma LastNLinesChunked_second_read_overlaps_witness :
  exists len off k err rest,
    trace (LastNLinesChunked (plainArtifact abcd) 2 2 1 tt)
      = CallSize 8 None :: CallReadAt 2 7 1 (Some EOF)
        :: CallReadAt len off k err :: rest
    /\ off = Z.max 0 (8 - 2 * 1)
    /\ off + len = 8 - 1 + 1.
Proof.
  apply (LastNLinesChunked_second_read_overlaps abcd 2 1).
  - vm_compute. split; [discriminate|reflexivity].
  - vm_compute. reflexivity.
  - vm_compute. reflexivity.
Defined.
